(** * Kana Tower: the display/input text mapping of [src/utils/textMapping.ts]

    A shallow embedding of the alignment between a display text (kanji and
    kana) and the kana text the player has to type, of the per-position
    validator and of the display segmenter, followed by the properties of
    the specification that were checked against them.

    Conventions of the embedding.
    - A JavaScript string is the list of its UTF-16 code units; indices and
      lengths are those of the source.
    - [JUndefined] is the value [undefined]: indexing a string or an array
      out of range yields it and the code stores it in a few places.
    - Indices and cursors are natural numbers.  [findIndex] keeps its [-1]
      and is therefore an integer.
    - The three modules the file imports ([kanjiToKanaMapping],
      [multipleReadings], [japaneseInput]) are not part of the development.
      They are the fields of the class [Ext.Services]; every definition and
      theorem is parametric in them.
    - The two handlers of the screen that uses the module, [startGame] and
      [handleInputChange], are in [LongTextModeScreen], each as a function
      on the state of the component. *)

From Stdlib Require Import List Arith Bool NArith ZArith Lia Sorted.
Import ListNotations.


(** ** JavaScript values used by the module *)

Definition char16 := N.
Definition jsstring := list char16.

Inductive jsval : Type :=
| JUndefined
| JString (s : jsstring).

Fixpoint jsstring_eqb (a b : jsstring) : bool :=
  match a, b with
  | [], [] => true
  | x :: a', y :: b' => N.eqb x y && jsstring_eqb a' b'
  | _, _ => false
  end.

(** [===] and the SameValueZero of [includes] and [Set], on strings and
    [undefined]. *)
Definition jsval_eqb (a b : jsval) : bool :=
  match a, b with
  | JUndefined, JUndefined => true
  | JString s, JString t => jsstring_eqb s t
  | _, _ => false
  end.

(** [s[k]] *)
Definition charAt (s : jsstring) (k : nat) : jsval :=
  match nth_error s k with
  | Some c => JString [c]
  | None => JUndefined
  end.

(** [s[k]] for an index that may be [-1] *)
Definition charAtZ (s : jsstring) (k : Z) : jsval :=
  if (k <? 0)%Z then JUndefined else charAt s (Z.to_nat k).

(** [s.substring(a, b)]: both bounds are clamped to the length and swapped
    when they come in the wrong order. *)
Definition substring (s : jsstring) (a b : nat) : jsstring :=
  let a' := Nat.min a (length s) in
  let b' := Nat.min b (length s) in
  firstn (Nat.max a' b' - Nat.min a' b') (skipn (Nat.min a' b') s).

(** [s.substring(a)] *)
Definition substringFrom (s : jsstring) (a : nat) : jsstring :=
  skipn (Nat.min a (length s)) s.

(** Truthiness of a string-or-nothing value: the empty string is falsy. *)
Definition truthy (v : jsval) : bool :=
  match v with
  | JString (_ :: _) => true
  | _ => false
  end.

(** [xs.filter(Boolean)] *)
Definition filterBoolean (xs : list jsval) : list jsval := filter truthy xs.

(** [xs.includes(v)] *)
Definition includes (xs : list jsval) (v : jsval) : bool :=
  existsb (jsval_eqb v) xs.

(** [Array.from(new Set(xs))]: the elements in the order of their first
    insertion.  [seen] is the content of the set so far. *)
Fixpoint setInsertAll (seen xs : list jsval) : list jsval :=
  match xs with
  | [] => []
  | x :: rest =>
      if includes seen x then setInsertAll seen rest
      else x :: setInsertAll (x :: seen) rest
  end.

Definition arrayFromSet (xs : list jsval) : list jsval := setInsertAll [] xs.

(** [xs.findIndex(p)], [-1] when nothing satisfies [p]. *)
Fixpoint findIndexFrom {A : Type} (p : A -> bool) (k : Z) (xs : list A) : Z :=
  match xs with
  | [] => (-1)%Z
  | x :: rest => if p x then k else findIndexFrom p (k + 1)%Z rest
  end.

Definition findIndex {A : Type} (p : A -> bool) (xs : list A) : Z :=
  findIndexFrom p 0%Z xs.

(** [xs.map((x, index) => f(x, index))] *)
Fixpoint mapiFrom {A B : Type} (f : A -> nat -> B) (k : nat) (xs : list A)
  : list B :=
  match xs with
  | [] => []
  | x :: rest => f x k :: mapiFrom f (S k) rest
  end.

Definition mapi {A B : Type} (f : A -> nat -> B) (xs : list A) : list B :=
  mapiFrom f 0 xs.

(** ** The imported modules *)

Module Ext.

(** Result of [validateJapaneseInput]; [confidence] and [hint] are only
    logged by this module and are left out. *)
Record JapaneseValidation : Type := {
  isValid : bool;
  isComplete : bool;
  canContinue : bool;
  nextPossibleChars : option (list jsval);
  transformationPath : option (list jsval)
}.

Class Services : Type := {
  (* kanjiToKanaMapping *)
  isKanji : jsstring -> bool;
  getKanaReading : jsstring -> jsval;
  hasKanaReading : jsstring -> bool;
  (* multipleReadings *)
  generateReadingVariations : jsstring -> jsstring -> list jsstring;
  getPossibleReadings : jsstring -> list jsstring;
  (* japaneseInput; the target is [undefined] when the mapping entry
     holds no input character *)
  validateJapaneseInput : jsstring -> jsval -> JapaneseValidation
}.

End Ext.

(** ** Data model *)

Record CharacterMapping : Type := {
  displayIndex : nat;
  inputIndex : nat;
  displayChar : jsstring;
  inputChar : jsval;
  isKanji : bool;
  kanjiWord : option jsstring;
  readingVariations : option (list jsval)
}.

Record TextMapping : Type := {
  displayText : jsstring;
  inputText : jsstring;
  mappings : list CharacterMapping;
  totalInputLength : nat
}.

(** The variables of the [while] loop of [createTextMapping]. *)
Record Cursor : Type := {
  atDisplay : nat;
  atInput : nat;
  pushed : list CharacterMapping
}.

Record SplitResult : Type := {
  completedPart : jsstring;
  currentChar : jsstring;
  remainingPart : jsstring
}.

Record ValidationResult : Type := {
  isValid : bool;
  isComplete : bool;
  canContinue : bool;
  possibleChars : list jsval
}.

(** The mapping object with its [mappings] array updated in place. *)
Definition withMappings (m : TextMapping) (ms : list CharacterMapping)
  : TextMapping :=
  {| displayText := displayText m;
     inputText := inputText m;
     mappings := ms;
     totalInputLength := totalInputLength m |}.

Section TextMappingCode.

Context `{Ext.Services}.

(** *** createTextMapping *)

(** The length of a reading when it is truthy. *)
Definition readingLength (v : jsval) : option nat :=
  match v with
  | JString (c :: r) => Some (length (c :: r))
  | _ => None
  end.

(** The entries pushed for one kanji: one per kana of its reading, as far
    as the input text reaches. *)
Definition kanjiEntries (inputText : jsstring) (dIdx : nat)
    (ch : jsstring) (word : jsstring) (start len : nat)
  : list CharacterMapping :=
  map (fun j =>
         {| displayIndex := dIdx;
            inputIndex := start + j;
            displayChar := ch;
            inputChar := charAt inputText (start + j);
            isKanji := true;
            kanjiWord := Some word;
            readingVariations := None |})
      (filter (fun j => start + j <? length inputText) (seq 0 len)).

(** The compound probe, lines 48-52: window lengths from [wordLength] down
    to 2, the first window whose reading is truthy and is found in the
    input text at the input cursor. *)
Fixpoint findCompound (displayText inputText : jsstring)
    (dIdx iIdx : nat) (wordLength : nat)
  : option (nat * jsstring * jsstring) :=
  match wordLength with
  | 0 => None
  | S shorter =>
      if 2 <=? wordLength then
        let potentialWord := substring displayText dIdx (dIdx + wordLength) in
        match Ext.getKanaReading potentialWord with
        | JString wordReading =>
            if truthy (JString wordReading)
               && jsstring_eqb
                    (substring inputText iIdx (iIdx + length wordReading))
                    wordReading
            then Some (wordLength, potentialWord, wordReading)
            else findCompound displayText inputText dIdx iIdx shorter
        | JUndefined =>
            findCompound displayText inputText dIdx iIdx shorter
        end
      else None
  end.

(** The body of the loop over the characters of a matched compound, lines
    56-100.  [chars] are the characters [displayText[dIdx + i]] still to
    visit, that is the rest of [potentialWord] from [i] on. *)
Fixpoint compoundChars (inputText : jsstring) (dIdx iIdx wordLength : nat)
    (potentialWord wordReading : jsstring)
    (chars : jsstring) (i : nat)
    (currentInputIndex : nat) (acc : list CharacterMapping)
  : nat * list CharacterMapping :=
  match chars with
  | [] => (currentInputIndex, acc)
  | c :: rest =>
      let currentDisplayChar := [c] in
      if Ext.isKanji currentDisplayChar then
        let charReadingLength :=
          match readingLength (Ext.getKanaReading currentDisplayChar) with
          | Some n => n
          | None =>
              let remainingChars := wordLength - i in
              let remainingReading :=
                substringFrom wordReading (currentInputIndex - iIdx) in
              Nat.max 1 (length remainingReading / remainingChars)
          end in
        compoundChars inputText dIdx iIdx wordLength potentialWord
          wordReading rest (S i)
          (currentInputIndex + charReadingLength)
          (acc ++ kanjiEntries inputText (dIdx + i) currentDisplayChar
                    potentialWord currentInputIndex charReadingLength)
      else
        compoundChars inputText dIdx iIdx wordLength potentialWord
          wordReading rest (S i)
          (currentInputIndex + 1)
          (acc ++ [{| displayIndex := dIdx + i;
                      inputIndex := currentInputIndex;
                      displayChar := currentDisplayChar;
                      inputChar := charAt inputText currentInputIndex;
                      isKanji := false;
                      kanjiWord := Some potentialWord;
                      readingVariations := None |}])
  end.

(** Lines 110-156: no compound starts here. *)
Definition singleChar (inputText : jsstring) (c : char16) (st : Cursor)
  : Cursor :=
  let displayChar := [c] in
  let dIdx := atDisplay st in
  let iIdx := atInput st in
  if Ext.isKanji displayChar && Ext.hasKanaReading displayChar then
    match readingLength (Ext.getKanaReading displayChar) with
    | Some n =>
        {| atDisplay := dIdx + 1;
           atInput := iIdx + n;
           pushed := pushed st
                     ++ kanjiEntries inputText dIdx displayChar displayChar
                          iIdx n |}
    | None =>
        {| atDisplay := dIdx + 1;
           atInput := iIdx + 1;
           pushed := pushed st
                     ++ [{| displayIndex := dIdx;
                            inputIndex := iIdx;
                            displayChar := displayChar;
                            inputChar := charAt inputText iIdx;
                            isKanji := true;
                            kanjiWord := None;
                            readingVariations := None |}] |}
    end
  else
    {| atDisplay := dIdx + 1;
       atInput := iIdx + 1;
       pushed := pushed st
                 ++ [{| displayIndex := dIdx;
                        inputIndex := iIdx;
                        displayChar := displayChar;
                        inputChar := charAt inputText iIdx;
                        isKanji := false;
                        kanjiWord := None;
                        readingVariations := None |}] |}.

(** One turn of the [while] loop. *)
Definition step (displayText inputText : jsstring) (st : Cursor) : Cursor :=
  match nth_error displayText (atDisplay st) with
  | None => st
  | Some c =>
      match findCompound displayText inputText (atDisplay st) (atInput st)
              (Nat.min 10 (length displayText - atDisplay st)) with
      | Some (wordLength, potentialWord, wordReading) =>
          let '(currentInputIndex, acc) :=
            compoundChars inputText (atDisplay st) (atInput st) wordLength
              potentialWord wordReading potentialWord 0
              (atInput st) (pushed st) in
          {| atDisplay := atDisplay st + wordLength;
             atInput := currentInputIndex;
             pushed := acc |}
      | None => singleChar inputText c st
      end
  end.

Definition running (displayText inputText : jsstring) (st : Cursor) : bool :=
  (atDisplay st <? length displayText) && (atInput st <? length inputText).

(** The [while] loop.  Every turn moves the display cursor forward, so
    [length displayText] turns are enough (theorem [loop_fuel_enough]). *)
Fixpoint loop (displayText inputText : jsstring) (fuel : nat) (st : Cursor)
  : Cursor :=
  match fuel with
  | 0 => st
  | S fuel' =>
      if running displayText inputText st
      then loop displayText inputText fuel' (step displayText inputText st)
      else st
  end.

Definition start : Cursor := {| atDisplay := 0; atInput := 0; pushed := [] |}.

Definition finalCursor (displayText inputText : jsstring) : Cursor :=
  loop displayText inputText (length displayText) start.

Definition createTextMapping (displayText inputText : jsstring)
  : TextMapping :=
  {| displayText := displayText;
     inputText := inputText;
     mappings := pushed (finalCursor displayText inputText);
     totalInputLength := length inputText |}.

(** *** getTargetCharAtPosition *)

Definition getTargetCharAtPosition (mapping : TextMapping)
    (inputPosition : nat) : jsstring :=
  if length (mappings mapping) <=? inputPosition then []
  else
    match nth_error (mappings mapping) inputPosition with
    | Some m =>
        match inputChar m with
        | JString s => s
        | JUndefined => []
        end
    | None => []
    end.

(** *** splitTextForDisplay *)

Definition splitTextForDisplay (mapping : TextMapping)
    (currentInputPosition : nat) : SplitResult :=
  match find (fun m => inputIndex m =? currentInputPosition)
             (mappings mapping) with
  | None =>
      {| completedPart := displayText mapping;
         currentChar := [];
         remainingPart := [] |}
  | Some currentMapping =>
      let displayPosition := displayIndex currentMapping in
      let currentDisplayChar := displayChar currentMapping in
      if isKanji currentMapping then
        let kanjiMappings :=
          filter (fun m => (displayIndex m =? displayPosition) && isKanji m)
                 (mappings mapping) in
        let isStillInputtingKanji :=
          existsb (fun m => currentInputPosition <=? inputIndex m)
                  kanjiMappings in
        if isStillInputtingKanji then
          {| completedPart :=
               substring (displayText mapping) 0 displayPosition;
             currentChar := currentDisplayChar;
             remainingPart :=
               substringFrom (displayText mapping) (displayPosition + 1) |}
        else
          {| completedPart :=
               substring (displayText mapping) 0 (displayPosition + 1);
             currentChar := [];
             remainingPart :=
               substringFrom (displayText mapping) (displayPosition + 1) |}
      else
        {| completedPart :=
             substring (displayText mapping) 0 displayPosition;
           currentChar := currentDisplayChar;
           remainingPart :=
             substringFrom (displayText mapping) (displayPosition + 1) |}
  end.

(** *** createAdvancedTextMapping *)

(** The callback of the [forEach] of lines 272-277. *)
Definition attachVariations (variations : list jsstring)
    (mapping : CharacterMapping) (index : nat) : CharacterMapping :=
  if isKanji mapping then
    {| displayIndex := displayIndex mapping;
       inputIndex := inputIndex mapping;
       displayChar := displayChar mapping;
       inputChar := inputChar mapping;
       isKanji := isKanji mapping;
       kanjiWord := kanjiWord mapping;
       readingVariations :=
         Some (filterBoolean
                 (map (fun variation => charAt variation index)
                      variations)) |}
  else mapping.

Definition createAdvancedTextMapping (displayText baseInputText : jsstring)
  : TextMapping :=
  let variations :=
    Ext.generateReadingVariations displayText baseInputText in
  let baseMapping := createTextMapping displayText baseInputText in
  withMappings baseMapping
    (mapi (attachVariations variations) (mappings baseMapping)).

(** *** validateInputAtPosition *)

(** Lines 308-325: the characters the alternative readings of the kanji
    word put at the rank of this kana inside its own kanji. *)
Definition alternativeChars (mapping : TextMapping)
    (targetMapping : CharacterMapping) (inputPosition : nat)
  : list jsval :=
  match kanjiWord targetMapping with
  | Some (w :: ord) =>
      if isKanji targetMapping then
        let alternativeReadings := Ext.getPossibleReadings (w :: ord) in
        if 0 <? length alternativeReadings then
          let kanjiMappings :=
            filter (fun m =>
                      (displayIndex m =? displayIndex targetMapping)
                      && isKanji m)
                   (mappings mapping) in
          let charPositionInKanji :=
            findIndex (fun m => inputIndex m =? inputPosition)
                      kanjiMappings in
          flat_map
            (fun reading =>
               if (charPositionInKanji <? Z.of_nat (length reading))%Z
               then [charAtZ reading charPositionInKanji]
               else [])
            alternativeReadings
        else []
      else []
  | _ => []
  end.

(** Lines 306-330, before the set removes the repetitions. *)
Definition collectedChars (mapping : TextMapping)
    (targetMapping : CharacterMapping) (inputPosition : nat)
  : list jsval :=
  [inputChar targetMapping]
    ++ alternativeChars mapping targetMapping inputPosition
    ++ match readingVariations targetMapping with
       | Some vs => vs
       | None => []
       end.

(** The local [possibleChars] after line 332. *)
Definition basicPossibleChars (mapping : TextMapping)
    (targetMapping : CharacterMapping) (inputPosition : nat)
  : list jsval :=
  arrayFromSet (collectedChars mapping targetMapping inputPosition).

(** Lines 383-391: what the sequential validator adds to the hints. *)
Definition sequentialChars (japaneseValidation : Ext.JapaneseValidation)
  : list jsval :=
  match Ext.nextPossibleChars japaneseValidation with
  | Some next => next
  | None => []
  end
  ++ match Ext.transformationPath japaneseValidation with
     | Some path => if 2 <? length path then path else []
     | None => []
     end.

Definition validateInputAtPosition (mapping : TextMapping)
    (userInput : jsstring) (inputPosition : nat) : ValidationResult :=
  if length (mappings mapping) <=? inputPosition then
    {| isValid := false;
       isComplete := false;
       canContinue := false;
       possibleChars := [] |}
  else
    match nth_error (mappings mapping) inputPosition with
    | None =>
        {| isValid := false;
           isComplete := false;
           canContinue := false;
           possibleChars := [] |}
    | Some targetMapping =>
        let targetChar := inputChar targetMapping in
        let possibleChars :=
          basicPossibleChars mapping targetMapping inputPosition in
        let japaneseValidation :=
          Ext.validateJapaneseInput userInput targetChar in
        let isValidBasic := includes possibleChars (JString userInput) in
        let isValidAdvanced := Ext.isValid japaneseValidation in
        let isValid := isValidBasic || isValidAdvanced in
        let isComplete :=
          jsval_eqb (JString userInput) targetChar
          || (Ext.isComplete japaneseValidation
              && Ext.isValid japaneseValidation) in
        let canContinue :=
          (isValidBasic && negb isComplete)
          || (Ext.isValid japaneseValidation
              && Ext.canContinue japaneseValidation) in
        let allPossibleChars :=
          arrayFromSet (possibleChars ++ sequentialChars japaneseValidation) in
        {| isValid := isValid;
           isComplete := isComplete;
           canContinue := canContinue;
           possibleChars := allPossibleChars |}
    end.

End TextMappingCode.

(** ** Predicates used in the statements *)

(** The display text of a mapping, for the places where [displayText] names
    an argument. *)
Definition TextMapping_displayText (m : TextMapping) : jsstring :=
  displayText m.

(** The answer of the validator when there is nothing left to validate. *)
Definition nothingLeft : ValidationResult :=
  {| isValid := false;
     isComplete := false;
     canContinue := false;
     possibleChars := [] |}.

Section Predicates.

Context `{Ext.Services}.

(** A kanji is registered when the lookup knows it and hands out a
    reading that is not empty. *)
Definition registered (c : char16) : bool :=
  if Ext.isKanji [c] then
    Ext.hasKanaReading [c] && truthy (Ext.getKanaReading [c])
  else true.

(** The reading of one display character: the registered reading of a
    kanji, one input character for anything else. *)
Definition unitLength (c : char16) : nat :=
  if Ext.isKanji [c] then
    match readingLength (Ext.getKanaReading [c]) with
    | Some n => n
    | None => 1
    end
  else 1.

Fixpoint totalReading (displayText : jsstring) : nat :=
  match displayText with
  | [] => 0
  | c :: rest => unitLength c + totalReading rest
  end.

(** [inputText] is the concatenation of the readings of the characters of
    [displayText]: every kanji is registered and its reading is what the
    input text holds next; a character that is no kanji stands for one
    character of the input text. *)
Fixpoint wellFormedPair (displayText inputText : jsstring) : bool :=
  match displayText with
  | [] =>
      match inputText with
      | [] => true
      | _ :: _ => false
      end
  | c :: rest =>
      if Ext.isKanji [c] then
        match Ext.getKanaReading [c] with
        | JString (x :: r) =>
            Ext.hasKanaReading [c]
            && jsstring_eqb (firstn (length (x :: r)) inputText) (x :: r)
            && wellFormedPair rest (skipn (length (x :: r)) inputText)
        | _ => false
        end
      else
        match inputText with
        | _ :: inputRest => wellFormedPair rest inputRest
        | [] => false
        end
  end.

(** The window of [wordLength] display characters at [dIdx] has a truthy
    reading and the input text continues with that reading at [iIdx]. *)
Definition compoundMatches (displayText inputText : jsstring)
    (dIdx iIdx wordLength : nat) : bool :=
  match Ext.getKanaReading
          (substring displayText dIdx (dIdx + wordLength)) with
  | JString wordReading =>
      truthy (JString wordReading)
      && jsstring_eqb
           (substring inputText iIdx (iIdx + length wordReading))
           wordReading
  | JUndefined => false
  end.

(** Order of two entries of a mapping, the first one pushed earlier. *)
Definition before (e1 e2 : CharacterMapping) : Prop :=
  displayIndex e1 <= displayIndex e2
  /\ inputIndex e1 < inputIndex e2
  /\ (displayIndex e1 = displayIndex e2 ->
      kanjiWord e1 = kanjiWord e2
      /\ isKanji e1 = true /\ isKanji e2 = true).

(** An entry points into the two texts. *)
Definition anchored (displayText inputText : jsstring)
    (e : CharacterMapping) : Prop :=
  (exists c, nth_error displayText (displayIndex e) = Some c
             /\ displayChar e = [c])
  /\ inputChar e = charAt inputText (inputIndex e)
  /\ readingVariations e = None.

(** What holds of the entries pushed so far when the display characters
    before [n] have been visited and the input cursor is at [cur]. *)
Record Pushed (displayText inputText : jsstring) (n cur : nat)
    (acc : list CharacterMapping) : Prop := {
  pushed_bound : n <= length displayText;
  pushed_range :
    Forall (fun e => displayIndex e < n /\ inputIndex e < cur) acc;
  pushed_anchored : Forall (anchored displayText inputText) acc;
  pushed_sorted : StronglySorted before acc
}.

(** The same when moreover the readings add up to the input text. *)
Record Aligned (displayText inputText : jsstring) (n cur : nat)
    (acc : list CharacterMapping) : Prop := {
  aligned_registered : forallb registered displayText = true;
  aligned_rest : cur + totalReading (skipn n displayText) = length inputText;
  aligned_input : map inputIndex acc = seq 0 cur;
  aligned_display : forall k, k < n -> In k (map displayIndex acc)
}.

(** What the segmenter relies on: the entries point into the display
    text of the mapping and come in the order of [before]. *)
Record Grounded (text : jsstring) (m : TextMapping) : Prop := {
  grounded_text : TextMapping_displayText m = text;
  grounded_chars :
    Forall (fun e =>
              exists c, nth_error text (displayIndex e) = Some c
                        /\ displayChar e = [c])
           (mappings m);
  grounded_sorted : StronglySorted before (mappings m)
}.

(** The fields the second pass must leave alone. *)
Definition baseFields (e : CharacterMapping)
  : nat * nat * jsstring * jsval * bool * option jsstring :=
  (displayIndex e, inputIndex e, displayChar e, inputChar e, isKanji e,
   kanjiWord e).

End Predicates.

(** ** The position look-ups of [textMapping.ts] *)

(** [getDisplayPositionFromInput], lines 170-176.  [x || 0] is [x] for a
    number and [0] for [undefined]. *)
Definition getDisplayPositionFromInput (mapping : TextMapping)
    (inputPosition : nat) : nat :=
  if length (mappings mapping) <=? inputPosition then
    length (TextMapping_displayText mapping)
  else
    match nth_error (mappings mapping) inputPosition with
    | Some m => displayIndex m
    | None => 0
    end.

(** [getInputPositionFromDisplay], lines 181-184. *)
Definition getInputPositionFromDisplay (mapping : TextMapping)
    (displayPosition : nat) : nat :=
  match find (fun m => displayIndex m =? displayPosition)
             (mappings mapping) with
  | Some mapping_item => inputIndex mapping_item
  | None => 0
  end.

(** ** The long text screen

    The state of the component [LongTextModeScreen] and its two handlers
    [startGame] and [handleInputChange].  A handler is one function from
    the state of the render it closes over to the state after its setters
    have been applied in order; the timer, the scroll position and the
    rendering are left out.  [startGame] takes the text that
    [getRandomLongText] has drawn. *)

Module LongTextModeScreen.

Inductive GameState : Type := idle | playing | paused | finished.

(** The fields of [LongTextContent] the handlers read; an absent optional
    field is [undefined]. *)
Record LongTextContent : Type := {
  content : jsstring;
  displayContent : jsval;
  inputContent : jsval
}.

Record Game : Type := {
  gameState : GameState;
  score : nat;
  combo : nat;
  lives : nat;
  currentText : option LongTextContent;
  textMapping : option TextMapping;
  userInput : jsstring;
  gameTime : nat;
  currentPosition : nat;
  errors : nat;
  currentLineNumber : nat
}.

(** [v || s] for an optional string [v]. *)
Definition orElse (v : jsval) (s : jsstring) : jsstring :=
  match v with
  | JString (c :: r) => c :: r
  | _ => s
  end.

Section Handlers.

Context `{Ext.Services}.

(** Lines 100-122. *)
Definition startGame (newText : LongTextContent) : Game :=
  let displayContent := orElse (displayContent newText) (content newText) in
  let inputContent := orElse (inputContent newText) (content newText) in
  let mapping := createAdvancedTextMapping displayContent inputContent in
  {| gameState := playing;
     score := 0;
     combo := 0;
     lives := 3;
     currentText := Some newText;
     textMapping := Some mapping;
     userInput := [];
     gameTime := 0;
     currentPosition := 0;
     errors := 0;
     currentLineNumber := 0 |}.

(** Lines 125-182. *)
Definition handleInputChange (g : Game) (text : jsstring) : Game :=
  match currentText g, textMapping g, gameState g with
  | Some _, Some mapping, playing =>
      let validation :=
        validateInputAtPosition mapping text (currentPosition g) in
      if isComplete validation then
        let newPosition := currentPosition g + 1 in
        let points := 5 * (combo g + 1) in
        if totalInputLength mapping <=? newPosition then
          let bonusPoints := totalInputLength mapping * 10 in
          {| gameState := finished;
             score := score g + points + bonusPoints;
             combo := combo g + 1;
             lives := lives g;
             currentText := currentText g;
             textMapping := textMapping g;
             userInput := [];
             gameTime := gameTime g;
             currentPosition := newPosition;
             errors := errors g;
             currentLineNumber := currentLineNumber g |}
        else
          {| gameState := gameState g;
             score := score g + points;
             combo := combo g + 1;
             lives := lives g;
             currentText := currentText g;
             textMapping := textMapping g;
             userInput := [];
             gameTime := gameTime g;
             currentPosition := newPosition;
             errors := errors g;
             currentLineNumber := currentLineNumber g |}
      else if negb (canContinue validation) && (0 <? length text) then
        {| gameState := if lives g <=? 1 then finished else gameState g;
           score := score g;
           combo := 0;
           lives := Nat.max 0 (lives g - 1);
           currentText := currentText g;
           textMapping := textMapping g;
           userInput := [];
           gameTime := gameTime g;
           currentPosition := currentPosition g;
           errors := errors g + 1;
           currentLineNumber := currentLineNumber g |}
      else
        {| gameState := gameState g;
           score := score g;
           combo := combo g;
           lives := lives g;
           currentText := currentText g;
           textMapping := textMapping g;
           userInput := text;
           gameTime := gameTime g;
           currentPosition := currentPosition g;
           errors := errors g;
           currentLineNumber := currentLineNumber g |}
  | _, _, _ => g
  end.

(** The handler called once for each text of a list, in order. *)
Definition typeAll (g : Game) (texts : list jsstring) : Game :=
  fold_left handleInputChange texts g.

End Handlers.

End LongTextModeScreen.

(** ** Predicates for the properties of the look-ups and of the screen *)

Section MorePredicates.

Context `{Ext.Services}.

(** A mapping whose entries are the input positions one after the other:
    what [createTextMapping] and [createAdvancedTextMapping] build from a
    well-formed pair. *)
Record Exact (text input : jsstring) (m : TextMapping) : Prop := {
  exact_grounded : Grounded text m;
  exact_total : totalInputLength m = length input;
  exact_input : map inputIndex (mappings m) = seq 0 (length input);
  exact_chars :
    Forall (fun e => inputChar e = charAt input (inputIndex e)) (mappings m);
  exact_cover :
    forall k, k < length text -> In k (map displayIndex (mappings m))
}.

(** An entry stands at a position of the input text, or it was pushed for
    a character of a compound that is no kanji. *)
Definition reachesInput (input : jsstring) (e : CharacterMapping) : Prop :=
  inputIndex e < length input
  \/ (isKanji e = false /\ exists word, kanjiWord e = Some word).

(** What the look-ups and the validator read of an entry, with the texts
    it was built from. *)
Definition faithful (text input : jsstring) (e : CharacterMapping) : Prop :=
  (exists c, nth_error text (displayIndex e) = Some c
             /\ displayChar e = [c])
  /\ inputChar e = charAt input (inputIndex e)
  /\ reachesInput input e.

(** The keystrokes that type a text one character at a time. *)
Definition keystrokes (input : jsstring) : list jsstring :=
  map (fun c => [c]) input.

(** The game is in play, or it ended with no life left. *)
Definition inPlayOrOut (g : LongTextModeScreen.Game) : Prop :=
  LongTextModeScreen.gameState g = LongTextModeScreen.playing
  \/ (LongTextModeScreen.gameState g = LongTextModeScreen.finished
      /\ LongTextModeScreen.lives g = 0).

End MorePredicates.

(** ** A small dictionary, for the examples

    Code units of the characters used below. *)

Module Sample.

Definition dai : char16 := 0x5927%N.   (* 大 *)
Definition gaku : char16 := 0x5B66%N.  (* 学 *)
Definition sei : char16 := 0x751F%N.   (* 生 *)
Definition shoku : char16 := 0x98DF%N. (* 食 *)
Definition ue : char16 := 0x4E0A%N.    (* 上 *)
Definition te : char16 := 0x624B%N.    (* 手 *)
Definition ki : char16 := 0x6728%N.    (* 木 *)

Definition h_i : char16 := 0x3044%N.   (* い *)
Definition h_u : char16 := 0x3046%N.   (* う *)
Definition h_e : char16 := 0x3048%N.   (* え *)
Definition h_ka : char16 := 0x304B%N.  (* か *)
Definition h_ga : char16 := 0x304C%N.  (* が *)
Definition h_ki : char16 := 0x304D%N.  (* き *)
Definition h_ku : char16 := 0x304F%N.  (* く *)
Definition h_shi : char16 := 0x3057%N. (* し *)
Definition h_ji : char16 := 0x3058%N.  (* じ *)
Definition h_zu : char16 := 0x305A%N.  (* ず *)
Definition h_se : char16 := 0x305B%N.  (* せ *)
Definition h_ta : char16 := 0x305F%N.  (* た *)
Definition h_da : char16 := 0x3060%N.  (* だ *)
Definition h_te : char16 := 0x3066%N.  (* て *)
Definition h_na : char16 := 0x306A%N.  (* な *)
Definition h_no : char16 := 0x306E%N.  (* の *)
Definition h_ha : char16 := 0x306F%N.  (* は *)
Definition h_ba : char16 := 0x3070%N.  (* ば *)
Definition h_pa : char16 := 0x3071%N.  (* ぱ *)
Definition h_be : char16 := 0x3079%N.  (* べ *)
Definition h_ma : char16 := 0x307E%N.  (* ま *)
Definition h_yo : char16 := 0x3087%N.  (* ょ *)
Definition h_ru : char16 := 0x308B%N.  (* る *)

(** The CJK unified ideographs. *)
Definition isKanji (s : jsstring) : bool :=
  match s with
  | c :: _ => (0x4E00 <=? c)%N && (c <=? 0x9FFF)%N
  | [] => false
  end.

Definition readings : list (jsstring * jsstring) :=
  [ ([dai; gaku; sei], [h_da; h_i; h_ga; h_ku; h_se; h_i]);
    ([dai; gaku], [h_da; h_i; h_ga; h_ku]);
    ([dai], [h_da; h_i]);
    ([gaku], [h_ga; h_ku]);
    ([sei], [h_se; h_i]);
    ([shoku; h_be; h_ru], [h_ta; h_be; h_ru]);
    ([shoku], [h_shi; h_yo; h_ku]);
    ([ue; te], [h_ji; h_yo; h_u; h_zu]);
    ([ue], [h_u; h_e]);
    ([te], [h_te]);
    ([ki], [h_ki]) ].

Fixpoint lookup (table : list (jsstring * jsstring)) (w : jsstring)
  : jsval :=
  match table with
  | [] => JUndefined
  | (k, r) :: rest => if jsstring_eqb k w then JString r else lookup rest w
  end.

Definition getKanaReading (w : jsstring) : jsval := lookup readings w.

Definition hasKanaReading (w : jsstring) : bool :=
  match lookup readings w with
  | JString _ => true
  | JUndefined => false
  end.

(** 生 is also read なま. *)
Definition getPossibleReadings (w : jsstring) : list jsstring :=
  if jsstring_eqb w [sei] then [[h_se; h_i]; [h_na; h_ma]] else [].

Definition generateReadingVariations (displayText base : jsstring)
  : list jsstring :=
  if jsstring_eqb displayText [sei] then [[h_na; h_ma]] else [].

(** は, ば, ぱ: the unvoiced kana is a step towards the other two. *)
Definition validateJapaneseInput (userInput : jsstring) (target : jsval)
  : Ext.JapaneseValidation :=
  if jsval_eqb (JString userInput) target then
    {| Ext.isValid := true; Ext.isComplete := true;
       Ext.canContinue := false;
       Ext.nextPossibleChars := None;
       Ext.transformationPath := None |}
  else if jsstring_eqb userInput [h_ha]
          && (jsval_eqb target (JString [h_ba])
              || jsval_eqb target (JString [h_pa])) then
    {| Ext.isValid := true; Ext.isComplete := false;
       Ext.canContinue := true;
       Ext.nextPossibleChars := Some [JString [h_ba]; JString [h_pa]];
       Ext.transformationPath :=
         Some [JString [h_ha]; JString [h_ba]; JString [h_pa]] |}
  else
    {| Ext.isValid := false; Ext.isComplete := false;
       Ext.canContinue := false;
       Ext.nextPossibleChars := None;
       Ext.transformationPath := None |}.

Definition services : Ext.Services :=
  {| Ext.isKanji := isKanji;
     Ext.getKanaReading := getKanaReading;
     Ext.hasKanaReading := hasKanaReading;
     Ext.generateReadingVariations := generateReadingVariations;
     Ext.getPossibleReadings := getPossibleReadings;
     Ext.validateJapaneseInput := validateJapaneseInput |}.

(** The texts of the examples. *)
Definition daigakusei : jsstring := [dai; gaku; sei].      (* 大学生 *)
Definition daigakusei_kana : jsstring :=
  [h_da; h_i; h_ga; h_ku; h_se; h_i].                       (* だいがくせい *)
Definition taberu : jsstring := [shoku; h_be; h_ru].        (* 食べる *)
Definition taberu_kana : jsstring := [h_ta; h_be; h_ru].    (* たべる *)
Definition jouzu : jsstring := [ue; te].                    (* 上手 *)
Definition jouzu_kana : jsstring := [h_ji; h_yo; h_u; h_zu]. (* じょうず *)
Definition kino : jsstring := [ki; h_no].                   (* 木の *)
Definition kino_kana : jsstring := [h_ki; h_no].            (* きの *)

Definition mappingOf (displayText inputText : jsstring) : TextMapping :=
  @createTextMapping services displayText inputText.

Definition advancedMappingOf (displayText inputText : jsstring)
  : TextMapping :=
  @createAdvancedTextMapping services displayText inputText.

Definition validate (mapping : TextMapping) (userInput : jsstring)
    (inputPosition : nat) : ValidationResult :=
  @validateInputAtPosition services mapping userInput inputPosition.

(** Two texts for the long text screen: 木 to be typed as きの, where the
    display text ends first, and 大学生 to be typed as だいがくせい. *)
Definition kiText : LongTextModeScreen.LongTextContent :=
  {| LongTextModeScreen.content := kino_kana;
     LongTextModeScreen.displayContent := JString [ki];
     LongTextModeScreen.inputContent := JUndefined |}.

Definition daigakuseiText : LongTextModeScreen.LongTextContent :=
  {| LongTextModeScreen.content := daigakusei;
     LongTextModeScreen.displayContent := JUndefined;
     LongTextModeScreen.inputContent := JString daigakusei_kana |}.

Definition startGame (newText : LongTextModeScreen.LongTextContent)
  : LongTextModeScreen.Game :=
  @LongTextModeScreen.startGame services newText.

Definition typeAll (g : LongTextModeScreen.Game) (texts : list jsstring)
  : LongTextModeScreen.Game :=
  @LongTextModeScreen.typeAll services g texts.

End Sample.

(** * Properties *)

(** ** Strings, values and arrays *)

Lemma jsstring_eqb_eq (a b : jsstring) : jsstring_eqb a b = true <-> a = b.
Proof.
  revert b; induction a as [|x a IH]; intros [|y b]; simpl;
    try (split; [discriminate | congruence]); try tauto.
  rewrite andb_true_iff, N.eqb_eq, IH.
  split; [intros [-> ->]; reflexivity | intros E; injection E; auto].
Qed.

Lemma jsstring_eqb_refl (a : jsstring) : jsstring_eqb a a = true.
Proof. apply jsstring_eqb_eq; reflexivity. Qed.

Lemma jsval_eqb_eq (a b : jsval) : jsval_eqb a b = true <-> a = b.
Proof.
  destruct a as [|s], b as [|t]; simpl;
    try (split; [discriminate | congruence]); try tauto.
  rewrite jsstring_eqb_eq.
  split; [congruence | intros E; injection E; auto].
Qed.

Lemma includes_In (xs : list jsval) (v : jsval) :
  includes xs v = true <-> In v xs.
Proof.
  unfold includes. rewrite existsb_exists. split.
  - intros (x & Hx & E). apply jsval_eqb_eq in E. subst; assumption.
  - intros Hv. exists v. split; [assumption | apply jsval_eqb_eq; reflexivity].
Qed.

Lemma includes_false (xs : list jsval) (v : jsval) :
  includes xs v = false <-> ~ In v xs.
Proof.
  rewrite <- includes_In. destruct (includes xs v); split; congruence.
Qed.


Lemma setInsertAll_In (xs seen : list jsval) (v : jsval) :
  In v (setInsertAll seen xs) <-> In v xs /\ ~ In v seen.
Proof.
  revert seen; induction xs as [|x xs IH]; intros seen; simpl.
  - tauto.
  - destruct (includes seen x) eqn:I.
    + apply includes_In in I. rewrite IH. split.
      * tauto.
      * intros [[-> | Hv] Hn]; [contradiction | tauto].
    + apply includes_false in I. simpl. rewrite IH. simpl. split.
      * intros [-> | (Hv & Hn)]; [tauto | tauto].
      * intros [[-> | Hv] Hn]; [tauto |].
        destruct (jsval_eqb x v) eqn:E.
        -- apply jsval_eqb_eq in E. tauto.
        -- right. split; [assumption |]. intros [-> | Hs]; [| tauto].
           rewrite (proj2 (jsval_eqb_eq v v) eq_refl) in E. discriminate.
Qed.




Lemma arrayFromSet_In (xs : list jsval) (v : jsval) :
  In v (arrayFromSet xs) <-> In v xs.
Proof. unfold arrayFromSet. rewrite setInsertAll_In. simpl. tauto. Qed.



Lemma substring_le (s : jsstring) (a b : nat) :
  a <= b -> substring s a b = firstn (b - a) (skipn a s).
Proof.
  intros Hab. unfold substring.
  destruct (le_lt_dec (length s) a) as [Hl | Hl].
  - rewrite (Nat.min_l (Nat.min a (length s))) by lia.
    rewrite !skipn_all2 by lia. rewrite !firstn_nil. reflexivity.
  - replace (Nat.min a (length s)) with a by lia.
    destruct (le_lt_dec b (length s)) as [Hb | Hb].
    + replace (Nat.min b (length s)) with b by lia.
      rewrite Nat.min_l, Nat.max_r by lia. reflexivity.
    + replace (Nat.min b (length s)) with (length s) by lia.
      rewrite Nat.min_l, Nat.max_r by lia.
      rewrite !firstn_all2; try reflexivity; rewrite length_skipn; lia.
Qed.

Lemma substring_0 (s : jsstring) (b : nat) : substring s 0 b = firstn b s.
Proof. rewrite substring_le by lia. rewrite Nat.sub_0_r. reflexivity. Qed.

Lemma substringFrom_skipn (s : jsstring) (a : nat) :
  substringFrom s a = skipn a s.
Proof.
  unfold substringFrom. destruct (le_lt_dec (length s) a).
  - rewrite Nat.min_r by lia. rewrite skipn_all, skipn_all2 by lia.
    reflexivity.
  - rewrite Nat.min_l by lia. reflexivity.
Qed.

Lemma length_substring (s : jsstring) (a n : nat) :
  a + n <= length s -> length (substring s a (a + n)) = n.
Proof.
  intros Hl. rewrite substring_le by lia.
  rewrite length_firstn, length_skipn. lia.
Qed.

Lemma nth_error_substring (s : jsstring) (a n k : nat) :
  k < n -> nth_error (substring s a (a + n)) k = nth_error s (a + k).
Proof.
  intros Hk. rewrite substring_le by lia.
  replace (a + n - a) with n by lia.
  rewrite nth_error_firstn.
  destruct (k <? n) eqn:E; [| apply Nat.ltb_ge in E; lia].
  apply nth_error_skipn.
Qed.

(** The text is what stands before a position, the character there and
    what stands after it. *)
Lemma text_around (s : jsstring) (k : nat) (c : char16) :
  nth_error s k = Some c ->
  substring s 0 k ++ [c] ++ substringFrom s (k + 1) = s.
Proof.
  intros Hk. rewrite substring_0, substringFrom_skipn.
  destruct (nth_error_split _ _ Hk) as (l1 & l2 & -> & <-).
  rewrite firstn_app, Nat.sub_diag, firstn_all. simpl.
  rewrite app_nil_r.
  rewrite skipn_app, skipn_all2 by lia.
  replace (length l1 + 1 - length l1) with 1 by lia. reflexivity.
Qed.

(** ** The validator at one position *)

Section Validator.

Context `{Ext.Services}.

Lemma validate_in_range (mapping : TextMapping) (userInput : jsstring)
    (inputPosition : nat) (target : CharacterMapping) :
  nth_error (mappings mapping) inputPosition = Some target ->
  validateInputAtPosition mapping userInput inputPosition
  = let seqr := Ext.validateJapaneseInput userInput (inputChar target) in
    let basic := basicPossibleChars mapping target inputPosition in
    let complete :=
      jsval_eqb (JString userInput) (inputChar target)
      || (Ext.isComplete seqr && Ext.isValid seqr) in
    {| isValid := includes basic (JString userInput) || Ext.isValid seqr;
       isComplete := complete;
       canContinue :=
         (includes basic (JString userInput) && negb complete)
         || (Ext.isValid seqr && Ext.canContinue seqr);
       possibleChars := arrayFromSet (basic ++ sequentialChars seqr) |}.
Proof.
  intros Ht. unfold validateInputAtPosition.
  assert (inputPosition < length (mappings mapping)) as Hlt
      by (apply nth_error_Some; congruence).
  destruct (length (mappings mapping) <=? inputPosition) eqn:E.
  - apply Nat.leb_le in E. lia.
  - rewrite Ht. reflexivity.
Qed.

Lemma validate_out_of_range (mapping : TextMapping) (userInput : jsstring)
    (inputPosition : nat) :
  length (mappings mapping) <= inputPosition ->
  validateInputAtPosition mapping userInput inputPosition = nothingLeft.
Proof.
  intros Hle. unfold validateInputAtPosition.
  apply Nat.leb_le in Hle. rewrite Hle. reflexivity.
Qed.


(** C2. At a position that holds a mapping entry, the three flags of
    [validateInputAtPosition] are the stated combinations of the basic
    match (the user input is one of the de-duplicated possible characters
    of lines 306-332) and of the answer of the sequential validator for
    the user input and the target character: valid when either accepts,
    complete when the input is the target or the sequential validator
    says complete and valid, continuable when the basic match holds
    without completion or the sequential validator says valid and
    continuable. *)
Theorem validateInputAtPosition_flags (mapping : TextMapping)
    (userInput : jsstring) (inputPosition : nat)
    (target : CharacterMapping) :
  nth_error (mappings mapping) inputPosition = Some target ->
  let sequentialResult :=
    Ext.validateJapaneseInput userInput (inputChar target) in
  let possible := basicPossibleChars mapping target inputPosition in
  let result := validateInputAtPosition mapping userInput inputPosition in
  isValid result
  = includes possible (JString userInput) || Ext.isValid sequentialResult
  /\ isComplete result
     = jsval_eqb (JString userInput) (inputChar target)
       || (Ext.isComplete sequentialResult
           && Ext.isValid sequentialResult)
  /\ canContinue result
     = (includes possible (JString userInput) && negb (isComplete result))
       || (Ext.isValid sequentialResult
           && Ext.canContinue sequentialResult).
Proof.
  intros Ht sequentialResult possible result.
  subst result. rewrite (validate_in_range _ _ _ _ Ht). simpl.
  repeat split; reflexivity.
Qed.


Lemma getTargetChar_out_of_range (mapping : TextMapping)
    (inputPosition : nat) :
  length (mappings mapping) <= inputPosition ->
  getTargetCharAtPosition mapping inputPosition = [].
Proof.
  intros Hle. unfold getTargetCharAtPosition.
  apply Nat.leb_le in Hle. rewrite Hle. reflexivity.
Qed.

End Validator.

(** ** The alignment loop *)

Lemma StronglySorted_app {A : Type} (R : A -> A -> Prop) (l1 l2 : list A) :
  StronglySorted R l1 -> StronglySorted R l2 ->
  (forall x y, In x l1 -> In y l2 -> R x y) ->
  StronglySorted R (l1 ++ l2).
Proof.
  induction l1 as [|a l1 IH]; intros S1 S2 Hx; simpl.
  - assumption.
  - apply StronglySorted_inv in S1 as [S1 Ha].
    constructor.
    + apply IH; [assumption | assumption |].
      intros x y Hin. apply Hx. right; assumption.
    + apply Forall_app. split; [assumption |].
      apply Forall_forall. intros y Hy. apply Hx; [left; reflexivity | assumption].
Qed.

Lemma StronglySorted_app_inv {A : Type} (R : A -> A -> Prop) (l1 l2 : list A) :
  StronglySorted R (l1 ++ l2) ->
  forall x y, In x l1 -> In y l2 -> R x y.
Proof.
  induction l1 as [|a l1 IH]; simpl; intros S x y Hx Hy.
  - contradiction.
  - apply StronglySorted_inv in S as [S Ha].
    destruct Hx as [<- | Hx].
    + rewrite Forall_forall in Ha. apply Ha. apply in_or_app. right; assumption.
    + apply IH; assumption.
Qed.

(** Two entries of a sorted list, by their positions. *)
Lemma StronglySorted_nth {A : Type} (R : A -> A -> Prop) (l : list A)
    (a b : nat) (x y : A) :
  StronglySorted R l -> a < b ->
  nth_error l a = Some x -> nth_error l b = Some y -> R x y.
Proof.
  intros S. revert a b. induction S as [|z l S IH Hz]; intros a b Hab Ha Hb.
  - destruct a; discriminate.
  - destruct b as [|b]; [lia |]. simpl in Hb.
    destruct a as [|a]; simpl in Ha.
    + injection Ha as <-. rewrite Forall_forall in Hz. apply Hz.
      eapply nth_error_In; eassumption.
    + apply (IH a b); [lia | assumption | assumption].
Qed.

Section Alignment.

Context `{Ext.Services}.

Variables displayText inputText : jsstring.

Lemma readingLength_positive (v : jsval) (n : nat) :
  readingLength v = Some n -> 1 <= n.
Proof.
  destruct v as [|[|c r]]; simpl; try discriminate.
  intros E; injection E as <-. lia.
Qed.

Lemma readingLength_truthy (v : jsval) :
  truthy v = true <-> exists n, readingLength v = Some n.
Proof.
  destruct v as [|[|c r]]; simpl; split;
    try discriminate; try (intros (n & E); discriminate); eauto.
Qed.

(** *** The entries of one kanji *)

Lemma kanjiEntries_In (dIdx : nat) (ch word : jsstring) (start len : nat)
    (e : CharacterMapping) :
  In e (kanjiEntries inputText dIdx ch word start len) ->
  displayIndex e = dIdx
  /\ start <= inputIndex e < start + len
  /\ inputIndex e < length inputText
  /\ displayChar e = ch
  /\ inputChar e = charAt inputText (inputIndex e)
  /\ isKanji e = true
  /\ kanjiWord e = Some word
  /\ readingVariations e = None.
Proof.
  unfold kanjiEntries. rewrite in_map_iff.
  intros (j & <- & Hj). apply filter_In in Hj as [Hj Hlt].
  apply in_seq in Hj. apply Nat.ltb_lt in Hlt. simpl.
  repeat split; lia.
Qed.

Lemma kanjiEntries_sorted (dIdx : nat) (ch word : jsstring)
    (start len : nat) :
  StronglySorted before (kanjiEntries inputText dIdx ch word start len).
Proof.
  unfold kanjiEntries. generalize 0 as a.
  induction len as [|len IH]; intros a; simpl.
  - constructor.
  - destruct (start + a <? length inputText); simpl.
    + constructor; [apply IH |].
      apply Forall_forall. intros e He.
      apply in_map_iff in He as (j & <- & Hj).
      apply filter_In in Hj as [Hj _]. apply in_seq in Hj.
      unfold before; simpl. repeat split; lia.
    + apply IH.
Qed.

(** Nothing is cut off when the reading fits into the input text. *)
Lemma kanjiEntries_complete (dIdx : nat) (ch word : jsstring)
    (start len : nat) :
  start + len <= length inputText ->
  map inputIndex (kanjiEntries inputText dIdx ch word start len)
  = seq start len
  /\ map displayIndex (kanjiEntries inputText dIdx ch word start len)
     = repeat dIdx len.
Proof.
  intros Hfit. unfold kanjiEntries.
  rewrite forallb_filter_id.
  - rewrite !map_map. simpl. split.
    + assert (forall a, map (fun j => start + j) (seq a len)
                        = seq (start + a) len) as Hseq.
      { clear Hfit. induction len as [|len' IH]; intros a; simpl.
        - reflexivity.
        - f_equal. rewrite IH. f_equal. lia. }
      rewrite Hseq. f_equal. lia.
    + generalize 0 as a. clear Hfit.
      induction len as [|len' IH]; intros a; simpl; [| rewrite IH];
        reflexivity.
  - apply forallb_forall. intros j Hj. apply in_seq in Hj.
    apply Nat.ltb_lt. lia.
Qed.

(** *** Pushing entries for the display character at [n] *)

Lemma Pushed_app (n cur cur' : nat) (acc new : list CharacterMapping) :
  Pushed displayText inputText n cur acc ->
  n < length displayText -> cur <= cur' ->
  Forall (fun e => displayIndex e = n /\ cur <= inputIndex e < cur') new ->
  Forall (anchored displayText inputText) new ->
  StronglySorted before new ->
  Pushed displayText inputText (S n) cur' (acc ++ new).
Proof.
  intros [Hb Hr Ha Hs] Hn Hc Hnew Hanch Hsn.
  rewrite Forall_forall in Hr, Hnew.
  constructor.
  - lia.
  - apply Forall_app. split; apply Forall_forall; intros e He.
    + specialize (Hr e He). lia.
    + specialize (Hnew e He). lia.
  - apply Forall_app. split; assumption.
  - apply StronglySorted_app; [assumption | assumption |].
    intros x y Hx Hy. specialize (Hr x Hx). specialize (Hnew y Hy).
    unfold before. repeat split; lia.
Qed.

Lemma Pushed_kanji (n cur len : nat) (acc : list CharacterMapping)
    (c : char16) (word : jsstring) :
  Pushed displayText inputText n cur acc ->
  nth_error displayText n = Some c ->
  Pushed displayText inputText (S n) (cur + len)
    (acc ++ kanjiEntries inputText n [c] word cur len).
Proof.
  intros HP Hc.
  apply Pushed_app with (cur := cur); try assumption.
  - apply nth_error_Some. congruence.
  - lia.
  - apply Forall_forall. intros e He.
    apply kanjiEntries_In in He. lia.
  - apply Forall_forall. intros e He.
    apply kanjiEntries_In in He as (Hd & _ & _ & Hch & Hi & _ & _ & Hv).
    unfold anchored. rewrite Hd. eauto.
  - apply kanjiEntries_sorted.
Qed.

Lemma Pushed_one (n cur : nat) (acc : list CharacterMapping)
    (c : char16) (kanji : bool) (word : option jsstring) :
  Pushed displayText inputText n cur acc ->
  nth_error displayText n = Some c ->
  Pushed displayText inputText (S n) (cur + 1)
    (acc ++ [{| displayIndex := n;
                inputIndex := cur;
                displayChar := [c];
                inputChar := charAt inputText cur;
                isKanji := kanji;
                kanjiWord := word;
                readingVariations := None |}]).
Proof.
  intros HP Hc.
  apply Pushed_app with (cur := cur); try assumption.
  - apply nth_error_Some. congruence.
  - lia.
  - repeat constructor; simpl; lia.
  - repeat constructor; simpl; eauto.
  - repeat constructor.
Qed.

(** *** The characters of a compound *)

Lemma compoundChars_Pushed (dIdx iIdx wordLength : nat)
    (potentialWord wordReading : jsstring) (chars : jsstring) :
  forall (i cur : nat) (acc : list CharacterMapping),
    (forall j c, nth_error chars j = Some c ->
                 nth_error displayText (dIdx + i + j) = Some c) ->
    Pushed displayText inputText (dIdx + i) cur acc ->
    let result :=
      compoundChars inputText dIdx iIdx wordLength potentialWord
        wordReading chars i cur acc in
    Pushed displayText inputText (dIdx + i + length chars)
      (fst result) (snd result)
    /\ cur + length chars <= fst result.
Proof.
  induction chars as [|c rest IH]; intros i cur acc Hchars HP; simpl.
  - rewrite Nat.add_0_r. split; [assumption | lia].
  - assert (nth_error displayText (dIdx + i) = Some c) as Hc.
    { rewrite <- (Nat.add_0_r (dIdx + i)). apply Hchars. reflexivity. }
    assert (forall j c', nth_error rest j = Some c' ->
              nth_error displayText (dIdx + S i + j) = Some c') as Hrest.
    { intros j c' Hj. replace (dIdx + S i + j) with (dIdx + i + S j) by lia.
      apply Hchars. assumption. }
    replace (dIdx + i + S (length rest))
      with (dIdx + S i + length rest) by lia.
    destruct (Ext.isKanji [c]).
    + match goal with
      | |- context [compoundChars _ _ _ _ _ _ _ _ (cur + ?len) _] =>
          set (charReadingLength := len)
      end.
      assert (1 <= charReadingLength) as Hlen.
      { subst charReadingLength.
        destruct (readingLength (Ext.getKanaReading [c])) eqn:E.
        - eapply readingLength_positive; eassumption.
        - destruct (_ / _); lia. }
      destruct (IH (S i) (cur + charReadingLength)
                  (acc ++ kanjiEntries inputText (dIdx + i) [c]
                            potentialWord cur charReadingLength)
                  Hrest) as [HP' Hcur].
      { replace (dIdx + S i) with (S (dIdx + i)) by lia.
        apply Pushed_kanji; assumption. }
      split; [exact HP' | lia].
    + destruct (IH (S i) (cur + 1)
                  (acc ++ [{| displayIndex := dIdx + i;
                              inputIndex := cur;
                              displayChar := [c];
                              inputChar := charAt inputText cur;
                              isKanji := false;
                              kanjiWord := Some potentialWord;
                              readingVariations := None |}])
                  Hrest) as [HP' Hcur].
      { replace (dIdx + S i) with (S (dIdx + i)) by lia.
        apply Pushed_one; assumption. }
      split; [exact HP' | lia].
Qed.

(** *** The compound probe *)

Lemma findCompound_unfold (dIdx iIdx n : nat) :
  findCompound displayText inputText dIdx iIdx (S (S n))
  = let potentialWord :=
      substring displayText dIdx (dIdx + S (S n)) in
    match Ext.getKanaReading potentialWord with
    | JString wordReading =>
        if truthy (JString wordReading)
           && jsstring_eqb
                (substring inputText iIdx (iIdx + length wordReading))
                wordReading
        then Some (S (S n), potentialWord, wordReading)
        else findCompound displayText inputText dIdx iIdx (S n)
    | JUndefined => findCompound displayText inputText dIdx iIdx (S n)
    end.
Proof. reflexivity. Qed.

Lemma findCompound_Some (dIdx iIdx n wordLength : nat)
    (potentialWord wordReading : jsstring) :
  findCompound displayText inputText dIdx iIdx n
  = Some (wordLength, potentialWord, wordReading) ->
  2 <= wordLength <= n
  /\ potentialWord = substring displayText dIdx (dIdx + wordLength)
  /\ Ext.getKanaReading potentialWord = JString wordReading
  /\ compoundMatches displayText inputText dIdx iIdx wordLength = true
  /\ forall longer, wordLength < longer <= n ->
       compoundMatches displayText inputText dIdx iIdx longer = false.
Proof.
  induction n as [|n IH]; [discriminate |].
  destruct n as [|n]; [discriminate |].
  rewrite findCompound_unfold. cbv zeta.
  destruct (Ext.getKanaReading
              (substring displayText dIdx (dIdx + S (S n)))) as [|r] eqn:Er.
  - intros E. destruct (IH E) as (Hl & Hw & Hr & Hm & Hlonger).
    repeat split; try assumption; try lia.
    intros longer Hlo. destruct (Nat.eq_dec longer (S (S n))) as [-> | Hne].
    + unfold compoundMatches. rewrite Er. reflexivity.
    + apply Hlonger. lia.
  - destruct (truthy (JString r)
              && jsstring_eqb
                   (substring inputText iIdx (iIdx + length r)) r) eqn:Em.
    + intros E; injection E as <- <- <-.
      repeat split; try lia; try assumption.
      unfold compoundMatches. rewrite Er. assumption.
    + intros E. destruct (IH E) as (Hl & Hw & Hr & Hm & Hlonger).
      repeat split; try assumption; try lia.
      intros longer Hlo. destruct (Nat.eq_dec longer (S (S n))) as [-> | Hne].
      * unfold compoundMatches. rewrite Er. assumption.
      * apply Hlonger. lia.
Qed.

Lemma findCompound_None (dIdx iIdx n : nat) :
  findCompound displayText inputText dIdx iIdx n = None ->
  forall wordLength, 2 <= wordLength <= n ->
    compoundMatches displayText inputText dIdx iIdx wordLength = false.
Proof.
  induction n as [|n IH]; [intros _ w Hw; lia |].
  destruct n as [|n]; [intros _ w Hw; lia |].
  rewrite findCompound_unfold. cbv zeta.
  destruct (Ext.getKanaReading
              (substring displayText dIdx (dIdx + S (S n)))) as [|r] eqn:Er.
  - intros E w Hw. destruct (Nat.eq_dec w (S (S n))) as [-> | Hne].
    + unfold compoundMatches. rewrite Er. reflexivity.
    + apply IH; [assumption | lia].
  - destruct (truthy (JString r)
              && jsstring_eqb
                   (substring inputText iIdx (iIdx + length r)) r) eqn:Em;
      [discriminate |].
    intros E w Hw. destruct (Nat.eq_dec w (S (S n))) as [-> | Hne].
    + unfold compoundMatches. rewrite Er. assumption.
    + apply IH; [assumption | lia].
Qed.

Lemma findCompound_window (dIdx iIdx wordLength : nat)
    (potentialWord wordReading : jsstring) :
  findCompound displayText inputText dIdx iIdx
    (Nat.min 10 (length displayText - dIdx))
  = Some (wordLength, potentialWord, wordReading) ->
  2 <= wordLength <= 10
  /\ dIdx + wordLength <= length displayText
  /\ length potentialWord = wordLength
  /\ forall j c, nth_error potentialWord j = Some c ->
                 nth_error displayText (dIdx + j) = Some c.
Proof.
  intros E. apply findCompound_Some in E as (Hl & -> & _).
  assert (dIdx + wordLength <= length displayText) as Hfit by lia.
  repeat split; try lia.
  - apply length_substring; assumption.
  - intros j c Hj.
    assert (j < wordLength) as Hlt.
    { rewrite <- (length_substring displayText dIdx wordLength Hfit).
      apply nth_error_Some. congruence. }
    rewrite nth_error_substring in Hj; assumption.
Qed.

(** *** One turn and the whole loop *)

Lemma running_true (st : Cursor) :
  running displayText inputText st = true ->
  atInput st < length inputText
  /\ exists c, nth_error displayText (atDisplay st) = Some c.
Proof.
  unfold running. rewrite andb_true_iff, !Nat.ltb_lt. intros [Hd Hi].
  split; [assumption |].
  destruct (nth_error displayText (atDisplay st)) as [c|] eqn:E; eauto.
  apply nth_error_None in E. lia.
Qed.

Lemma singleChar_Pushed (c : char16) (st : Cursor) :
  nth_error displayText (atDisplay st) = Some c ->
  Pushed displayText inputText (atDisplay st) (atInput st) (pushed st) ->
  let st' := singleChar inputText c st in
  Pushed displayText inputText (atDisplay st') (atInput st') (pushed st')
  /\ atDisplay st' = atDisplay st + 1
  /\ atInput st < atInput st'.
Proof.
  intros Hc HP. unfold singleChar.
  destruct (Ext.isKanji [c] && Ext.hasKanaReading [c]).
  - destruct (readingLength (Ext.getKanaReading [c])) as [n|] eqn:E;
      cbn [atDisplay atInput pushed]; rewrite Nat.add_1_r.
    + apply readingLength_positive in E.
      split; [apply Pushed_kanji; assumption | lia].
    + split; [| lia].
      apply Pushed_one; assumption.
  - cbn [atDisplay atInput pushed]; rewrite Nat.add_1_r.
    split; [| lia].
    apply Pushed_one; assumption.
Qed.

Lemma step_Pushed (st : Cursor) :
  running displayText inputText st = true ->
  Pushed displayText inputText (atDisplay st) (atInput st) (pushed st) ->
  let st' := step displayText inputText st in
  Pushed displayText inputText (atDisplay st') (atInput st') (pushed st')
  /\ atDisplay st < atDisplay st'
  /\ atInput st < atInput st'.
Proof.
  intros Hrun HP. apply running_true in Hrun as (Hi & c & Hc).
  unfold step. rewrite Hc.
  destruct (findCompound displayText inputText (atDisplay st) (atInput st)
              (Nat.min 10 (length displayText - atDisplay st)))
    as [[[wordLength potentialWord] wordReading]|] eqn:F.
  - apply findCompound_window in F as (Hl & Hfit & Hlen & Hchars).
    pose proof (compoundChars_Pushed (atDisplay st) (atInput st) wordLength
                  potentialWord wordReading potentialWord 0 (atInput st)
                  (pushed st)) as Hcc.
    rewrite !Nat.add_0_r in Hcc. specialize (Hcc Hchars HP).
    cbv zeta in Hcc. rewrite Hlen in Hcc.
    destruct (compoundChars inputText (atDisplay st) (atInput st) wordLength
                potentialWord wordReading potentialWord 0 (atInput st)
                (pushed st)) as [currentInputIndex acc].
    cbn [fst snd] in Hcc. cbn [atDisplay atInput pushed].
    destruct Hcc as [HP' Hcur]. split; [assumption | lia].
  - destruct (singleChar_Pushed c st Hc HP) as (HP' & Hd & Hin).
    cbv zeta. split; [assumption | lia].
Qed.

Lemma start_Pushed : Pushed displayText inputText 0 0 [].
Proof. constructor; [lia | constructor | constructor | constructor]. Qed.

Lemma loop_Pushed (fuel : nat) :
  forall st,
    Pushed displayText inputText (atDisplay st) (atInput st) (pushed st) ->
    let st' := loop displayText inputText fuel st in
    Pushed displayText inputText (atDisplay st') (atInput st') (pushed st').
Proof.
  induction fuel as [|fuel IH]; intros st HP; simpl; [assumption |].
  destruct (running displayText inputText st) eqn:Hrun; [| assumption].
  apply IH. apply step_Pushed; assumption.
Qed.

Lemma loop_stops (fuel : nat) :
  forall st,
    Pushed displayText inputText (atDisplay st) (atInput st) (pushed st) ->
    length displayText - atDisplay st <= fuel ->
    running displayText inputText (loop displayText inputText fuel st)
    = false.
Proof.
  induction fuel as [|fuel IH]; intros st HP Hfuel; simpl.
  - unfold running.
    destruct (atDisplay st <? length displayText) eqn:E; [| reflexivity].
    apply Nat.ltb_lt in E. lia.
  - destruct (running displayText inputText st) eqn:Hrun; [| assumption].
    destruct (step_Pushed st Hrun HP) as (HP' & Hd & _).
    apply IH; [assumption | lia].
Qed.

Lemma loop_stable (fuel : nat) :
  forall st,
    running displayText inputText (loop displayText inputText fuel st)
    = false ->
    forall extra,
      loop displayText inputText (fuel + extra) st
      = loop displayText inputText fuel st.
Proof.
  induction fuel as [|fuel IH]; intros st Hstop extra; simpl in *.
  - destruct extra; simpl; [reflexivity | rewrite Hstop; reflexivity].
  - destruct (running displayText inputText st); [| reflexivity].
    apply IH. assumption.
Qed.

(** The loop has come to its end after [length displayText] turns: its
    condition is false there and more turns change nothing. *)
Theorem loop_fuel_enough :
  running displayText inputText (finalCursor displayText inputText) = false
  /\ forall fuel, length displayText <= fuel ->
       loop displayText inputText fuel start
       = finalCursor displayText inputText.
Proof.
  assert (running displayText inputText
            (finalCursor displayText inputText) = false) as Hstop.
  { apply loop_stops; [apply start_Pushed | simpl; lia]. }
  split; [assumption |].
  intros fuel Hfuel.
  replace fuel with (length displayText + (fuel - length displayText))
    by lia.
  apply loop_stable. assumption.
Qed.

Lemma final_Pushed :
  Pushed displayText inputText
    (atDisplay (finalCursor displayText inputText))
    (atInput (finalCursor displayText inputText))
    (mappings (createTextMapping displayText inputText)).
Proof. apply (loop_Pushed (length displayText) start), start_Pushed. Qed.

End Alignment.

(** ** Well-formed pairs: every input character is mapped once *)

Section WellFormed.

Context `{Ext.Services}.

Variables displayText inputText : jsstring.

Lemma unitLength_positive (c : char16) : 1 <= unitLength c.
Proof.
  unfold unitLength. destruct (Ext.isKanji [c]); [| lia].
  destruct (readingLength (Ext.getKanaReading [c])) eqn:E; [| lia].
  eapply readingLength_positive; eassumption.
Qed.

Lemma totalReading_length (l : jsstring) : length l <= totalReading l.
Proof.
  induction l as [|c l IH]; simpl; [lia |].
  pose proof (unitLength_positive c). lia.
Qed.

Lemma skipn_nth (l : jsstring) (n : nat) (c : char16) :
  nth_error l n = Some c -> skipn n l = c :: skipn (S n) l.
Proof.
  revert n; induction l as [|x l IH]; intros [|n]; simpl; try discriminate.
  - intros E; injection E as ->. reflexivity.
  - apply IH.
Qed.

Lemma registered_kanji (c : char16) :
  registered c = true -> Ext.isKanji [c] = true ->
  Ext.hasKanaReading [c] = true
  /\ exists len, readingLength (Ext.getKanaReading [c]) = Some len.
Proof.
  unfold registered. intros Hr Hk. rewrite Hk in Hr.
  apply andb_true_iff in Hr as [Hh Ht].
  split; [assumption | apply readingLength_truthy; assumption].
Qed.

Lemma Aligned_app (n cur len : nat) (acc new : list CharacterMapping)
    (c : char16) :
  Aligned displayText inputText n cur acc ->
  nth_error displayText n = Some c ->
  unitLength c = len -> 1 <= len ->
  (cur + len <= length inputText ->
   map inputIndex new = seq cur len
   /\ map displayIndex new = repeat n len) ->
  Aligned displayText inputText (S n) (cur + len) (acc ++ new).
Proof.
  intros [Hreg Hrest Hin Hdis] Hc Hunit Hlen Hnew.
  rewrite (skipn_nth _ _ _ Hc) in Hrest. cbn [totalReading] in Hrest.
  destruct Hnew as [Hni Hnd]; [lia |].
  constructor.
  - assumption.
  - lia.
  - rewrite map_app, Hin, Hni. symmetry. apply seq_app.
  - intros k Hk. rewrite map_app, in_app_iff.
    destruct (Nat.eq_dec k n) as [-> | Hne].
    + right. rewrite Hnd. destruct len; [lia | left; reflexivity].
    + left. apply Hdis. lia.
Qed.

Lemma Aligned_kanji (n cur len : nat) (acc : list CharacterMapping)
    (c : char16) (word : jsstring) :
  Aligned displayText inputText n cur acc ->
  nth_error displayText n = Some c ->
  Ext.isKanji [c] = true ->
  readingLength (Ext.getKanaReading [c]) = Some len ->
  Aligned displayText inputText (S n) (cur + len)
    (acc ++ kanjiEntries inputText n [c] word cur len).
Proof.
  intros HA Hc Hk Hlen.
  apply Aligned_app with (c := c); try assumption.
  - unfold unitLength. rewrite Hk, Hlen. reflexivity.
  - eapply readingLength_positive; eassumption.
  - apply kanjiEntries_complete.
Qed.

Lemma Aligned_one (n cur : nat) (acc : list CharacterMapping)
    (c : char16) (e : CharacterMapping) :
  Aligned displayText inputText n cur acc ->
  nth_error displayText n = Some c ->
  Ext.isKanji [c] = false ->
  displayIndex e = n -> inputIndex e = cur ->
  Aligned displayText inputText (S n) (cur + 1) (acc ++ [e]).
Proof.
  intros HA Hc Hk Hd Hi.
  apply Aligned_app with (c := c); try assumption.
  - unfold unitLength. rewrite Hk. reflexivity.
  - lia.
  - intros _. simpl. rewrite Hd, Hi. split; reflexivity.
Qed.

Lemma compoundChars_Aligned (dIdx iIdx wordLength : nat)
    (potentialWord wordReading : jsstring) (chars : jsstring) :
  forall (i cur : nat) (acc : list CharacterMapping),
    (forall j c, nth_error chars j = Some c ->
                 nth_error displayText (dIdx + i + j) = Some c) ->
    Aligned displayText inputText (dIdx + i) cur acc ->
    let result :=
      compoundChars inputText dIdx iIdx wordLength potentialWord
        wordReading chars i cur acc in
    Aligned displayText inputText (dIdx + i + length chars)
      (fst result) (snd result).
Proof.
  induction chars as [|c rest IH]; intros i cur acc Hchars HA; simpl.
  - rewrite Nat.add_0_r. assumption.
  - assert (nth_error displayText (dIdx + i) = Some c) as Hc.
    { rewrite <- (Nat.add_0_r (dIdx + i)). apply Hchars. reflexivity. }
    assert (forall j c', nth_error rest j = Some c' ->
              nth_error displayText (dIdx + S i + j) = Some c') as Hrest.
    { intros j c' Hj. replace (dIdx + S i + j) with (dIdx + i + S j) by lia.
      apply Hchars. assumption. }
    replace (dIdx + i + S (length rest))
      with (dIdx + S i + length rest) by lia.
    assert (registered c = true) as Hreg.
    { pose proof (aligned_registered _ _ _ _ _ HA) as Hall.
      rewrite forallb_forall in Hall. apply Hall.
      eapply nth_error_In; eassumption. }
    destruct (Ext.isKanji [c]) eqn:Hk.
    + destruct (registered_kanji c Hreg Hk) as (_ & len & Hlen).
      rewrite Hlen. apply IH; [assumption |].
      replace (dIdx + S i) with (S (dIdx + i)) by lia.
      apply Aligned_kanji; assumption.
    + apply IH; [assumption |].
      replace (dIdx + S i) with (S (dIdx + i)) by lia.
      apply Aligned_one with (c := c); try assumption; reflexivity.
Qed.

Lemma singleChar_Aligned (c : char16) (st : Cursor) :
  nth_error displayText (atDisplay st) = Some c ->
  Aligned displayText inputText (atDisplay st) (atInput st) (pushed st) ->
  let st' := singleChar inputText c st in
  Aligned displayText inputText (atDisplay st') (atInput st') (pushed st').
Proof.
  intros Hc HA. unfold singleChar.
  assert (registered c = true) as Hreg.
  { pose proof (aligned_registered _ _ _ _ _ HA) as Hall.
    rewrite forallb_forall in Hall. apply Hall.
    eapply nth_error_In; eassumption. }
  destruct (Ext.isKanji [c]) eqn:Hk.
  - destruct (registered_kanji c Hreg Hk) as (Hh & len & Hlen).
    rewrite Hh, Hlen. cbn [andb atDisplay atInput pushed].
    rewrite Nat.add_1_r. apply Aligned_kanji; assumption.
  - cbn [andb atDisplay atInput pushed]. rewrite Nat.add_1_r.
    apply Aligned_one with (c := c); try assumption; reflexivity.
Qed.

Lemma step_Aligned (st : Cursor) :
  running displayText inputText st = true ->
  Aligned displayText inputText (atDisplay st) (atInput st) (pushed st) ->
  let st' := step displayText inputText st in
  Aligned displayText inputText (atDisplay st') (atInput st') (pushed st').
Proof.
  intros Hrun HA. apply running_true in Hrun as (Hi & c & Hc).
  unfold step. rewrite Hc.
  destruct (findCompound displayText inputText (atDisplay st) (atInput st)
              (Nat.min 10 (length displayText - atDisplay st)))
    as [[[wordLength potentialWord] wordReading]|] eqn:F.
  - apply findCompound_window in F as (Hl & Hfit & Hlen & Hchars).
    pose proof (compoundChars_Aligned (atDisplay st) (atInput st) wordLength
                  potentialWord wordReading potentialWord 0 (atInput st)
                  (pushed st)) as Hcc.
    rewrite !Nat.add_0_r in Hcc. specialize (Hcc Hchars HA).
    cbv zeta in Hcc. rewrite Hlen in Hcc.
    destruct (compoundChars inputText (atDisplay st) (atInput st) wordLength
                potentialWord wordReading potentialWord 0 (atInput st)
                (pushed st)) as [currentInputIndex acc].
    exact Hcc.
  - apply singleChar_Aligned; assumption.
Qed.

Lemma loop_Aligned (fuel : nat) :
  forall st,
    Aligned displayText inputText (atDisplay st) (atInput st) (pushed st) ->
    let st' := loop displayText inputText fuel st in
    Aligned displayText inputText (atDisplay st') (atInput st') (pushed st').
Proof.
  induction fuel as [|fuel IH]; intros st HA; simpl; [assumption |].
  destruct (running displayText inputText st) eqn:Hrun; [| assumption].
  apply IH. apply step_Aligned; assumption.
Qed.

(** When the readings of the display characters add up to the length of
    the input text, both cursors reach the end of their text together. *)
Lemma aligned_ends (st : Cursor) :
  Aligned displayText inputText (atDisplay st) (atInput st) (pushed st) ->
  atDisplay st <= length displayText ->
  running displayText inputText st = false ->
  atDisplay st = length displayText /\ atInput st = length inputText.
Proof.
  intros [_ Hrest _ _] Hb Hstop.
  pose proof (totalReading_length (skipn (atDisplay st) displayText)) as Ht.
  rewrite length_skipn in Ht.
  unfold running in Hstop. apply andb_false_iff in Hstop.
  destruct Hstop as [Hd | Hi].
  - apply Nat.ltb_ge in Hd.
    rewrite skipn_all2 in Hrest by assumption. simpl in Hrest. lia.
  - apply Nat.ltb_ge in Hi. lia.
Qed.

(** The alignment only looks at lengths: when every kanji is registered and
    the readings of the display characters add up to the length of the
    input text, the loop maps the input positions one after the other and
    ends with both cursors at the end. *)
Lemma createTextMapping_aligned :
  forallb registered displayText = true ->
  totalReading displayText = length inputText ->
  let final := finalCursor displayText inputText in
  Aligned displayText inputText (length displayText) (length inputText)
    (pushed final)
  /\ atDisplay final = length displayText
  /\ atInput final = length inputText.
Proof.
  intros Hreg Htotal final.
  assert (Aligned displayText inputText (atDisplay final) (atInput final)
            (pushed final)) as HA.
  { apply (loop_Aligned (length displayText) start).
    constructor; simpl; try assumption; try reflexivity.
    intros k Hk; lia. }
  pose proof (final_Pushed displayText inputText) as HP.
  destruct (aligned_ends final HA) as [Hd Hi].
  - apply (pushed_bound _ _ _ _ _ HP).
  - apply loop_fuel_enough.
  - rewrite <- Hd at 1. rewrite <- Hi at 1. auto.
Qed.

End WellFormed.

Section WellFormedPairs.

Context `{Ext.Services}.

Lemma wellFormedPair_lengths (displayText : jsstring) :
  forall inputText,
    wellFormedPair displayText inputText = true ->
    forallb registered displayText = true
    /\ totalReading displayText = length inputText.
Proof.
  induction displayText as [|c rest IH]; intros inputText Hwf;
    cbn [wellFormedPair] in Hwf; cbn [forallb totalReading].
  - destruct inputText; [auto | discriminate].
  - destruct (Ext.isKanji [c]) eqn:Hk.
    + destruct (Ext.getKanaReading [c]) as [|[|x r]] eqn:Eg;
        try discriminate.
      apply andb_true_iff in Hwf as [Hwf Hrest].
      apply andb_true_iff in Hwf as [Hh Hpre].
      apply IH in Hrest as [Hreg Htot].
      assert (registered c = true) as ->
          by (unfold registered; rewrite Hk, Hh, Eg; reflexivity).
      assert (unitLength c = length (x :: r)) as ->
          by (unfold unitLength; rewrite Hk, Eg; reflexivity).
      rewrite Hreg, Htot. split; [reflexivity |].
      apply jsstring_eqb_eq in Hpre.
      assert (length (firstn (length (x :: r)) inputText)
              = length (x :: r)) as Hl by (rewrite Hpre; reflexivity).
      rewrite length_firstn in Hl. rewrite length_skipn. lia.
    + destruct inputText as [|y inputRest]; [discriminate |].
      apply IH in Hwf as [Hreg Htot].
      assert (registered c = true) as ->
          by (unfold registered; rewrite Hk; reflexivity).
      assert (unitLength c = 1) as ->
          by (unfold unitLength; rewrite Hk; reflexivity).
      rewrite Hreg, Htot. split; reflexivity.
Qed.


End WellFormedPairs.

(** ** Order of the entries *)

Lemma StronglySorted_In {A : Type} (R : A -> A -> Prop) (l : list A)
    (x y : A) :
  StronglySorted R l -> In x l -> In y l -> x = y \/ R x y \/ R y x.
Proof.
  intros S. induction S as [|z l S IH Hz]; simpl; [contradiction |].
  rewrite Forall_forall in Hz.
  intros [<- | Hx] [<- | Hy]; auto.
Qed.

Section Order.

Context `{Ext.Services}.

(** C9. In the mapping of [createTextMapping] the display indices never
    decrease along the sequence, two entries with the same display index
    carry the same [kanjiWord] (and the same display character and kanji
    flag), and the entries pushed for the kana of one kanji reading all
    carry the display index and the word they were pushed for. *)
Theorem createTextMapping_displayIndex_order
    (displayText inputText : jsstring) :
  let entries := mappings (createTextMapping displayText inputText) in
  (forall a b e1 e2,
      a <= b ->
      nth_error entries a = Some e1 -> nth_error entries b = Some e2 ->
      displayIndex e1 <= displayIndex e2)
  /\ (forall e1 e2,
         In e1 entries -> In e2 entries ->
         displayIndex e1 = displayIndex e2 ->
         kanjiWord e1 = kanjiWord e2
         /\ displayChar e1 = displayChar e2
         /\ isKanji e1 = isKanji e2)
  /\ (forall dIdx ch word start len e,
         In e (kanjiEntries inputText dIdx ch word start len) ->
         displayIndex e = dIdx /\ kanjiWord e = Some word).
Proof.
  intros entries.
  pose proof (final_Pushed displayText inputText) as [_ _ Ha Hs].
  fold entries in Ha, Hs.
  split; [| split].
  - intros a b e1 e2 Hab H1 H2.
    destruct (Nat.eq_dec a b) as [-> | Hne].
    + rewrite H1 in H2. injection H2 as ->. lia.
    + assert (before e1 e2) as Hb
          by (apply (StronglySorted_nth before entries a b); auto; lia).
      apply Hb.
  - intros e1 e2 H1 H2 Hd.
    rewrite Forall_forall in Ha.
    destruct (Ha e1 H1) as ((c1 & Hc1 & Hch1) & _).
    destruct (Ha e2 H2) as ((c2 & Hc2 & Hch2) & _).
    assert (displayChar e1 = displayChar e2) as Hch
        by (rewrite Hch1, Hch2; congruence).
    destruct (StronglySorted_In before entries e1 e2 Hs H1 H2)
      as [-> | [Hb | Hb]].
    + auto.
    + destruct Hb as (_ & _ & Hsame).
      destruct (Hsame Hd) as (Hw & Hk1 & Hk2).
      repeat split; congruence.
    + destruct Hb as (_ & _ & Hsame).
      destruct (Hsame (eq_sym Hd)) as (Hw & Hk1 & Hk2).
      repeat split; congruence.
  - intros dIdx ch word start len e He.
    apply kanjiEntries_In in He. tauto.
Qed.

End Order.

(** ** The second pass *)

Section Advanced.

Context `{Ext.Services}.

Lemma attachVariations_baseFields (variations : list jsstring)
    (e : CharacterMapping) (index : nat) :
  baseFields (attachVariations variations e index) = baseFields e.
Proof.
  unfold attachVariations, baseFields.
  destruct (isKanji e) eqn:E; cbn; rewrite ?E; reflexivity.
Qed.

Lemma mapiFrom_baseFields (variations : list jsstring)
    (entries : list CharacterMapping) :
  forall k,
    map baseFields (mapiFrom (attachVariations variations) k entries)
    = map baseFields entries.
Proof.
  induction entries as [|e entries IH]; intros k; simpl.
  - reflexivity.
  - rewrite attachVariations_baseFields, IH. reflexivity.
Qed.

Lemma mapiFrom_nth {A B : Type} (f : A -> nat -> B) (xs : list A) :
  forall k n,
    nth_error (mapiFrom f k xs) n
    = option_map (fun x => f x (k + n)) (nth_error xs n).
Proof.
  induction xs as [|x xs IH]; intros k [|n]; simpl; try reflexivity.
  - rewrite Nat.add_0_r. reflexivity.
  - rewrite IH. replace (S k + n) with (k + S n) by lia. reflexivity.
Qed.

(** C8. The mapping of [createAdvancedTextMapping] has the texts and the
    total length of the base mapping and, entry by entry, its display
    index, input index, display character, input character, kanji flag
    and kanji word.  The entries that are not marked kanji are the base
    entries unchanged; a kanji entry differs from its base entry at most
    in [readingVariations], which holds the characters of the variations
    at the position of the entry. *)
Theorem createAdvancedTextMapping_frame
    (displayText baseInputText : jsstring) :
  let base := createTextMapping displayText baseInputText in
  let advanced := createAdvancedTextMapping displayText baseInputText in
  TextMapping_displayText advanced = TextMapping_displayText base
  /\ inputText advanced = inputText base
  /\ totalInputLength advanced = totalInputLength base
  /\ map baseFields (mappings advanced) = map baseFields (mappings base)
  /\ forall index e,
      nth_error (mappings base) index = Some e ->
      exists e',
        nth_error (mappings advanced) index = Some e'
        /\ baseFields e' = baseFields e
        /\ (isKanji e = false -> e' = e)
        /\ (isKanji e = true ->
            readingVariations e'
            = Some (filterBoolean
                      (map (fun variation => charAt variation index)
                           (Ext.generateReadingVariations
                              displayText baseInputText)))).
Proof.
  intros base advanced.
  repeat split; try reflexivity.
  - apply mapiFrom_baseFields.
  - intros index e He.
    exists (attachVariations
              (Ext.generateReadingVariations displayText baseInputText)
              e index).
    split; [| split; [| split]].
    + unfold advanced, createAdvancedTextMapping, withMappings, mapi.
      cbn [mappings]. rewrite mapiFrom_nth. fold base. rewrite He.
      reflexivity.
    + apply attachVariations_baseFields.
    + intros Hk. unfold attachVariations. rewrite Hk. reflexivity.
    + intros Hk. unfold attachVariations. rewrite Hk. reflexivity.
Qed.

End Advanced.

(** ** The display segmenter *)

Section Segmenter.

Context `{Ext.Services}.

Lemma find_owner_Some (entries : list CharacterMapping) (p : nat)
    (e : CharacterMapping) :
  find (fun e => inputIndex e =? p) entries = Some e ->
  In e entries /\ inputIndex e = p.
Proof.
  intros He. apply find_some in He as [Hin Hp].
  apply Nat.eqb_eq in Hp. auto.
Qed.

Lemma find_owner_None (entries : list CharacterMapping) (p : nat) :
  find (fun e => inputIndex e =? p) entries = None <->
  forall e, In e entries -> inputIndex e <> p.
Proof.
  split.
  - intros Hn e He Hp.
    pose proof (find_none _ _ Hn e He) as Hf. cbv beta in Hf.
    apply Nat.eqb_neq in Hf. contradiction.
  - intros Hall.
    destruct (find (fun e => inputIndex e =? p) entries) as [e|] eqn:E;
      [| reflexivity].
    apply find_owner_Some in E as [Hin Hp].
    destruct (Hall e Hin Hp).
Qed.

(** The branch of lines 240-247 is never taken: the entry that owns the
    input position is itself one of the kanji entries looked at. *)
Lemma splitTextForDisplay_owner (mapping : TextMapping) (p : nat)
    (e : CharacterMapping) :
  find (fun e => inputIndex e =? p) (mappings mapping) = Some e ->
  splitTextForDisplay mapping p
  = {| completedPart :=
         substring (TextMapping_displayText mapping) 0 (displayIndex e);
       currentChar := displayChar e;
       remainingPart :=
         substringFrom (TextMapping_displayText mapping)
           (displayIndex e + 1) |}.
Proof.
  intros He. unfold splitTextForDisplay. rewrite He.
  destruct (isKanji e) eqn:Hk; [| reflexivity].
  assert (existsb (fun m => p <=? inputIndex m)
            (filter (fun m => (displayIndex m =? displayIndex e)
                              && isKanji m)
                    (mappings mapping)) = true) as ->; [| reflexivity].
  apply find_some in He as [Hin Hp]. apply Nat.eqb_eq in Hp.
  apply existsb_exists. exists e. split.
  - apply filter_In. split; [assumption |].
    rewrite Nat.eqb_refl, Hk. reflexivity.
  - apply Nat.leb_le. lia.
Qed.

Lemma splitTextForDisplay_finished (mapping : TextMapping) (p : nat) :
  find (fun e => inputIndex e =? p) (mappings mapping) = None ->
  splitTextForDisplay mapping p
  = {| completedPart := TextMapping_displayText mapping;
       currentChar := [];
       remainingPart := [] |}.
Proof. intros He. unfold splitTextForDisplay. rewrite He. reflexivity. Qed.

Lemma base_Grounded (displayText inputText : jsstring) :
  Grounded displayText (createTextMapping displayText inputText).
Proof.
  pose proof (final_Pushed displayText inputText) as [_ _ Ha Hs].
  constructor; [reflexivity | | assumption].
  eapply Forall_impl; [| exact Ha]. intros e [Hc _]. exact Hc.
Qed.

Lemma before_baseFields (e1 e2 y z : CharacterMapping) :
  baseFields e2 = baseFields e1 -> baseFields z = baseFields y ->
  before e1 y -> before e2 z.
Proof.
  unfold baseFields, before. intros E1 Ez.
  injection E1 as -> -> ? ? -> ->. injection Ez as -> -> ? ? -> ->.
  tauto.
Qed.

Lemma Forall_before_baseFields (e1 e2 : CharacterMapping)
    (l1 : list CharacterMapping) :
  baseFields e2 = baseFields e1 ->
  forall l2,
    map baseFields l2 = map baseFields l1 ->
    Forall (before e1) l1 -> Forall (before e2) l2.
Proof.
  intros E1. induction l1 as [|y l1 IH]; intros [|z l2] E Hall;
    try discriminate; constructor.
  - cbn [map] in E. assert (baseFields z = baseFields y) as Ez
        by congruence.
    inversion Hall; subst. eapply before_baseFields; eassumption.
  - cbn [map] in E. assert (map baseFields l2 = map baseFields l1) as E'
        by congruence.
    inversion Hall; subst. apply IH; assumption.
Qed.

Lemma StronglySorted_baseFields (l1 : list CharacterMapping) :
  forall l2,
    map baseFields l2 = map baseFields l1 ->
    StronglySorted before l1 -> StronglySorted before l2.
Proof.
  induction l1 as [|e1 l1 IH]; intros [|e2 l2] E S;
    try discriminate; [constructor |].
  cbn [map] in E.
  assert (baseFields e2 = baseFields e1) as E1 by congruence.
  assert (map baseFields l2 = map baseFields l1) as E' by congruence.
  apply StronglySorted_inv in S as [S Hall].
  constructor; [apply IH; assumption |].
  eapply Forall_before_baseFields; eassumption.
Qed.

Lemma advanced_Grounded (displayText inputText : jsstring) :
  Grounded displayText (createAdvancedTextMapping displayText inputText).
Proof.
  destruct (base_Grounded displayText inputText) as [_ Hc Hs].
  assert (map baseFields
            (mappings (createAdvancedTextMapping displayText inputText))
          = map baseFields
              (mappings (createTextMapping displayText inputText)))
    as Hfields by apply mapiFrom_baseFields.
  constructor; [reflexivity | |].
  - revert Hfields Hc.
    generalize (mappings (createTextMapping displayText inputText)).
    generalize (mappings
                  (createAdvancedTextMapping displayText inputText)).
    induction l as [|e' l IH]; intros [|e l0] E Hc;
      try discriminate; constructor.
    + cbn [map] in E. assert (baseFields e' = baseFields e) as E1
          by congruence.
      inversion Hc as [|? ? (c & Hn & Hd) ?].
      unfold baseFields in E1. injection E1 as -> ? -> ? ? ?. eauto.
    + cbn [map] in E.
      assert (map baseFields l = map baseFields l0) as E' by congruence.
      inversion Hc; subst. apply (IH l0); assumption.
  - eapply StronglySorted_baseFields; eassumption.
Qed.

Lemma Grounded_partition (text : jsstring) (mapping : TextMapping)
    (p : nat) (e : CharacterMapping) :
  Grounded text mapping ->
  find (fun e => inputIndex e =? p) (mappings mapping) = Some e ->
  let parts := splitTextForDisplay mapping p in
  completedPart parts ++ currentChar parts ++ remainingPart parts = text
  /\ completedPart parts = firstn (displayIndex e) text
  /\ currentChar parts = displayChar e
  /\ remainingPart parts = skipn (displayIndex e + 1) text
  /\ displayIndex e < length text.
Proof.
  intros [Ht Hc _] He parts. subst parts.
  rewrite (splitTextForDisplay_owner _ _ _ He).
  cbn [completedPart currentChar remainingPart].
  rewrite Ht. apply find_some in He as [Hin _].
  rewrite Forall_forall in Hc. destruct (Hc e Hin) as (c & Hn & Hd).
  rewrite Hd. split; [apply text_around; assumption |].
  rewrite substring_0, substringFrom_skipn.
  repeat split. apply nth_error_Some. congruence.
Qed.

(** C5. For a mapping built by [createTextMapping] or by
    [createAdvancedTextMapping] and any input position: when some entry
    has this input index the three parts of [splitTextForDisplay] have
    lengths adding up to the length of the display text and their
    concatenation is the display text; when no entry has it the completed
    part is the whole display text and the two other parts are empty. *)
Theorem splitTextForDisplay_partition (displayText inputText : jsstring)
    (mapping : TextMapping) (inputPosition : nat) :
  mapping = createTextMapping displayText inputText
  \/ mapping = createAdvancedTextMapping displayText inputText ->
  let parts := splitTextForDisplay mapping inputPosition in
  ((exists e, In e (mappings mapping) /\ inputIndex e = inputPosition) ->
   length (completedPart parts) + length (currentChar parts)
     + length (remainingPart parts) = length displayText
   /\ completedPart parts ++ currentChar parts ++ remainingPart parts
      = displayText)
  /\ ((forall e, In e (mappings mapping) -> inputIndex e <> inputPosition) ->
      completedPart parts = displayText
      /\ currentChar parts = []
      /\ remainingPart parts = []).
Proof.
  intros Hm parts.
  assert (Grounded displayText mapping) as HG
      by (destruct Hm as [-> | ->];
          [apply base_Grounded | apply advanced_Grounded]).
  split.
  - intros (e & Hin & Hp).
    destruct (find (fun e => inputIndex e =? inputPosition)
                   (mappings mapping)) as [owner|] eqn:E.
    + destruct (Grounded_partition _ _ _ _ HG E) as (Hcat & _).
      fold parts in Hcat. split; [| assumption].
      clear E.
      apply (f_equal (@length char16)) in Hcat.
      rewrite !length_app in Hcat. lia.
    + destruct (proj1 (find_owner_None _ _) E e Hin Hp).
  - intros Hnone. apply find_owner_None in Hnone.
    subst parts. rewrite (splitTextForDisplay_finished _ _ Hnone).
    cbn [completedPart currentChar remainingPart].
    rewrite (grounded_text _ _ HG). auto.
Qed.


End Segmenter.

(** ** The compound probe takes the longest match *)

Section Compound.

Context `{Ext.Services}.

Variables displayText inputText : jsstring.

Lemma compoundMatches_true (dIdx iIdx wordLength : nat) :
  compoundMatches displayText inputText dIdx iIdx wordLength = true <->
  exists wordReading,
    Ext.getKanaReading (substring displayText dIdx (dIdx + wordLength))
    = JString wordReading
    /\ wordReading <> []
    /\ substring inputText iIdx (iIdx + length wordReading) = wordReading.
Proof.
  unfold compoundMatches.
  destruct (Ext.getKanaReading
              (substring displayText dIdx (dIdx + wordLength))) as [|r].
  - split; [discriminate | intros (r & E & _); discriminate].
  - rewrite andb_true_iff, jsstring_eqb_eq. split.
    + intros [Ht Hp]. exists r. repeat split; [| assumption].
      intros ->. discriminate.
    + intros (r' & E & Hne & Hp). injection E as <-.
      split; [| assumption]. destruct r; [contradiction | reflexivity].
Qed.

Lemma compoundChars_extends (dIdx iIdx wordLength : nat)
    (potentialWord wordReading : jsstring) (chars : jsstring) :
  forall (i cur : nat) (acc : list CharacterMapping),
  exists new,
    snd (compoundChars inputText dIdx iIdx wordLength potentialWord
           wordReading chars i cur acc) = acc ++ new
    /\ Forall (fun e => kanjiWord e = Some potentialWord) new.
Proof.
  induction chars as [|c rest IH]; intros i cur acc; cbn [compoundChars].
  - exists []. rewrite app_nil_r. split; [reflexivity | constructor].
  - destruct (Ext.isKanji [c]).
    + match goal with
      | |- context [compoundChars _ _ _ _ _ _ _ _ ?cur' (acc ++ ?block)] =>
          destruct (IH (S i) cur' (acc ++ block)) as (new & -> & Hnew);
          exists (block ++ new)
      end.
      rewrite app_assoc. split; [reflexivity |].
      apply Forall_app. split; [| assumption].
      apply Forall_forall. intros e He.
      apply kanjiEntries_In in He. tauto.
    + match goal with
      | |- context [compoundChars _ _ _ _ _ _ _ _ ?cur' (acc ++ ?block)] =>
          destruct (IH (S i) cur' (acc ++ block)) as (new & -> & Hnew);
          exists (block ++ new)
      end.
      rewrite app_assoc. split; [reflexivity |].
      apply Forall_app. split; [| assumption].
      repeat constructor.
Qed.

Lemma step_compound (st : Cursor) (wordLength : nat)
    (potentialWord wordReading : jsstring) :
  running displayText inputText st = true ->
  findCompound displayText inputText (atDisplay st) (atInput st)
    (Nat.min 10 (length displayText - atDisplay st))
  = Some (wordLength, potentialWord, wordReading) ->
  exists new,
    pushed (step displayText inputText st) = pushed st ++ new
    /\ atDisplay (step displayText inputText st)
       = atDisplay st + wordLength
    /\ Forall (fun e => kanjiWord e = Some potentialWord) new.
Proof.
  intros Hrun F. apply running_true in Hrun as (_ & c & Hc).
  unfold step. rewrite Hc, F.
  destruct (compoundChars_extends (atDisplay st) (atInput st) wordLength
              potentialWord wordReading potentialWord 0 (atInput st)
              (pushed st)) as (new & Hnew & Hword).
  destruct (compoundChars inputText (atDisplay st) (atInput st) wordLength
              potentialWord wordReading potentialWord 0 (atInput st)
              (pushed st)) as [currentInputIndex acc].
  cbn [snd] in Hnew. cbn [atDisplay pushed]. exists new. auto.
Qed.

Lemma findCompound_finds (dIdx iIdx n wordLength : nat) :
  2 <= wordLength <= n ->
  compoundMatches displayText inputText dIdx iIdx wordLength = true ->
  exists selected potentialWord wordReading,
    findCompound displayText inputText dIdx iIdx n
    = Some (selected, potentialWord, wordReading)
    /\ wordLength <= selected.
Proof.
  intros Hl Hm.
  destruct (findCompound displayText inputText dIdx iIdx n)
    as [[[selected potentialWord] wordReading]|] eqn:F.
  - exists selected, potentialWord, wordReading. split; [reflexivity |].
    apply findCompound_Some in F as (_ & _ & _ & _ & Hlonger).
    destruct (le_lt_dec wordLength selected) as [Hle | Hlt];
      [assumption |].
    rewrite Hlonger in Hm by lia. discriminate.
  - rewrite (findCompound_None _ _ _ _ _ F wordLength Hl) in Hm.
    discriminate.
Qed.

(** C4. At a display position the probe looks at the windows of length
    [min(10, remaining display length)] down to 2 and takes the longest
    one whose reading is truthy and continues the input text at the input
    cursor; no shorter window is looked at once one is taken, and when no
    window matches none is taken.  The entries pushed by the turn carry
    the word that was taken.  In particular, when the windows of length 2
    and 3 both match, a window of length 3 at least is taken (of length 3
    when nothing longer matches) and no entry pushed by the turn carries
    the word of length 2; for a display text of three characters no entry
    of the whole mapping does. *)
Theorem findCompound_longest_first :
  (forall st : Cursor,
      let dIdx := atDisplay st in
      let iIdx := atInput st in
      let longest := Nat.min 10 (length displayText - dIdx) in
      let probe := findCompound displayText inputText dIdx iIdx longest in
      (forall wordLength potentialWord wordReading,
          probe = Some (wordLength, potentialWord, wordReading) ->
          2 <= wordLength <= longest
          /\ potentialWord
             = substring displayText dIdx (dIdx + wordLength)
          /\ Ext.getKanaReading potentialWord = JString wordReading
          /\ wordReading <> []
          /\ substring inputText iIdx (iIdx + length wordReading)
             = wordReading
          /\ (forall longer, wordLength < longer <= longest ->
                compoundMatches displayText inputText dIdx iIdx longer
                = false)
          /\ (running displayText inputText st = true ->
              exists new,
                pushed (step displayText inputText st) = pushed st ++ new
                /\ atDisplay (step displayText inputText st)
                   = dIdx + wordLength
                /\ Forall (fun e => kanjiWord e = Some potentialWord) new))
      /\ (probe = None ->
          forall wordLength, 2 <= wordLength <= longest ->
            compoundMatches displayText inputText dIdx iIdx wordLength
            = false)
      /\ (running displayText inputText st = true ->
          3 <= longest ->
          compoundMatches displayText inputText dIdx iIdx 2 = true ->
          compoundMatches displayText inputText dIdx iIdx 3 = true ->
          exists wordLength potentialWord wordReading new,
            probe = Some (wordLength, potentialWord, wordReading)
            /\ 3 <= wordLength
            /\ ((forall longer, 3 < longer <= longest ->
                   compoundMatches displayText inputText dIdx iIdx longer
                   = false) ->
                wordLength = 3)
            /\ pushed (step displayText inputText st) = pushed st ++ new
            /\ Forall (fun e =>
                         kanjiWord e = Some potentialWord
                         /\ kanjiWord e
                            <> Some (substring displayText dIdx (dIdx + 2)))
                      new))
  /\ (length displayText = 3 ->
      compoundMatches displayText inputText 0 0 2 = true ->
      compoundMatches displayText inputText 0 0 3 = true ->
      Forall (fun e =>
                kanjiWord e = Some displayText
                /\ kanjiWord e <> Some (substring displayText 0 2))
             (mappings (createTextMapping displayText inputText))).
Proof.
  assert (forall st : Cursor,
             running displayText inputText st = true ->
             3 <= Nat.min 10 (length displayText - atDisplay st) ->
             compoundMatches displayText inputText (atDisplay st)
               (atInput st) 3 = true ->
             exists wordLength potentialWord wordReading new,
               findCompound displayText inputText (atDisplay st)
                 (atInput st)
                 (Nat.min 10 (length displayText - atDisplay st))
               = Some (wordLength, potentialWord, wordReading)
               /\ 3 <= wordLength
               /\ ((forall longer,
                       3 < longer
                       <= Nat.min 10 (length displayText - atDisplay st) ->
                       compoundMatches displayText inputText (atDisplay st)
                         (atInput st) longer = false) ->
                   wordLength = 3)
               /\ potentialWord
                  = substring displayText (atDisplay st)
                      (atDisplay st + wordLength)
               /\ atDisplay (step displayText inputText st)
                  = atDisplay st + wordLength
               /\ pushed (step displayText inputText st) = pushed st ++ new
               /\ Forall (fun e =>
                            kanjiWord e = Some potentialWord
                            /\ kanjiWord e
                               <> Some (substring displayText (atDisplay st)
                                          (atDisplay st + 2)))
                         new) as Hthree.
  { intros st Hrun Hlong H3.
    destruct (findCompound_finds (atDisplay st) (atInput st)
                (Nat.min 10 (length displayText - atDisplay st)) 3)
      as (wordLength & potentialWord & wordReading & F & Hle);
      [lia | assumption |].
    destruct (step_compound st _ _ _ Hrun F) as (new & Hnew & Hat & Hword).
    pose proof (findCompound_Some _ _ _ _ _ _ _ _ F)
      as (Hl & Hw & _ & Hsel & Hlonger).
    exists wordLength, potentialWord, wordReading, new.
    repeat split; try assumption.
    - intros Hnone.
      destruct (le_lt_dec wordLength 3) as [? | Hgt]; [lia |].
      rewrite Hnone in Hsel by lia. discriminate.
    - eapply Forall_impl; [| exact Hword].
      intros e He. split; [assumption |].
      rewrite He, Hw. intros E. injection E as E.
      apply (f_equal (@length char16)) in E.
      rewrite (length_substring displayText (atDisplay st) wordLength)
        in E by lia.
      rewrite (length_substring displayText (atDisplay st) 2) in E by lia.
      lia. }
  split.
  - intros st dIdx iIdx longest probe. split; [| split].
    + intros wordLength potentialWord wordReading F.
      pose proof (findCompound_Some _ _ _ _ _ _ _ _ F)
        as (Hl & Hw & Hr & Hsel & Hlonger).
      apply compoundMatches_true in Hsel as (r & Er & Hne & Hpre).
      rewrite <- Hw, Hr in Er. injection Er as <-.
      repeat split; try assumption; try lia.
      intros Hrun. apply step_compound with (wordReading := wordReading);
        assumption.
    + intros F. apply findCompound_None. exact F.
    + intros Hrun Hlong _ H3.
      destruct (Hthree st Hrun Hlong H3)
        as (wordLength & potentialWord & wordReading & new
            & F & Hle & Hex & _ & _ & Hnew & Hword).
      exists wordLength, potentialWord, wordReading, new. auto.
  - intros Hlen _ H3.
    assert (running displayText inputText start = true) as Hrun.
    { unfold running, start. cbn [atDisplay atInput].
      apply compoundMatches_true in H3 as (r & _ & Hne & Hpre).
      apply andb_true_iff. split; apply Nat.ltb_lt; [lia |].
      destruct inputText; [| simpl; lia].
      destruct r; [contradiction | discriminate]. }
    destruct (Hthree start Hrun) as (wordLength & potentialWord
                                     & wordReading & new & F & Hle & _
                                     & Hw & Hat & Hnew & Hword).
    { cbn [start atDisplay]. lia. }
    { exact H3. }
    cbn [start atDisplay atInput pushed] in F, Hw, Hat, Hnew, Hword.
    apply findCompound_Some in F as (Hl & _).
    assert (wordLength = 3) as -> by lia.
    assert (potentialWord = displayText) as ->.
    { rewrite Hw, substring_0. apply firstn_all2. lia. }
    unfold createTextMapping, finalCursor. cbn [mappings].
    rewrite Hlen. cbn [loop]. rewrite Hrun.
    assert (running displayText inputText
              (step displayText inputText start) = false) as Hstop.
    { unfold running. rewrite Hat, Hlen. reflexivity. }
    rewrite Hstop. rewrite Hnew. exact Hword.
Qed.

End Compound.

(** ** The total length and the number of entries *)

Section Lengths.

Context `{Ext.Services}.

Lemma validate_in_range_chars (mapping : TextMapping)
    (userInput : jsstring) (inputPosition : nat) :
  inputPosition < length (mappings mapping) ->
  possibleChars (validateInputAtPosition mapping userInput inputPosition)
  <> [].
Proof.
  intros Hlt.
  destruct (nth_error (mappings mapping) inputPosition) as [target|] eqn:E.
  - rewrite (validate_in_range _ _ _ _ E). cbv zeta. cbn [possibleChars].
    intros Hnil.
    assert (In (inputChar target)
               (arrayFromSet
                  (basicPossibleChars mapping target inputPosition
                     ++ sequentialChars
                          (Ext.validateJapaneseInput userInput
                             (inputChar target))))) as Hin.
    { apply arrayFromSet_In, in_or_app. left.
      apply arrayFromSet_In. left. reflexivity. }
    rewrite Hnil in Hin. destruct Hin.
  - apply nth_error_None in E. lia.
Qed.

Lemma wellFormed_mappings_length (displayText inputText : jsstring)
    (mapping : TextMapping) :
  wellFormedPair displayText inputText = true ->
  mapping = createTextMapping displayText inputText
  \/ mapping = createAdvancedTextMapping displayText inputText ->
  length (mappings mapping) = totalInputLength mapping.
Proof.
  intros Hwf Hm.
  apply wellFormedPair_lengths in Hwf as [Hreg Htotal].
  destruct (createTextMapping_aligned displayText inputText Hreg Htotal)
    as ([_ _ Hin _] & _ & _).
  apply (f_equal (@length nat)) in Hin.
  rewrite length_map, length_seq in Hin.
  destruct Hm as [-> | ->]; cbn [totalInputLength mappings].
  - exact Hin.
  - unfold createAdvancedTextMapping, withMappings.
    cbn [totalInputLength mappings createTextMapping].
    rewrite <- Hin.
    rewrite <- (length_map baseFields), <- (length_map baseFields (pushed _)).
    f_equal. apply mapiFrom_baseFields.
Qed.

(** C3, amended. The terminal answer (all three flags false, no possible
    character) is given for every input position from [mappings.length]
    on, and for no other: the bound is the number of mapping entries, not
    [totalInputLength].  For a mapping built from a well-formed pair the
    two numbers agree, and the terminal answer is given for every input
    position from [totalInputLength] on. *)
Theorem validateInputAtPosition_past_mappings :
  (forall mapping userInput inputPosition,
      length (mappings mapping) <= inputPosition ->
      validateInputAtPosition mapping userInput inputPosition = nothingLeft)
  /\ (forall mapping userInput inputPosition,
         inputPosition < length (mappings mapping) ->
         validateInputAtPosition mapping userInput inputPosition
         <> nothingLeft)
  /\ (forall displayText inputText mapping userInput inputPosition,
         wellFormedPair displayText inputText = true ->
         mapping = createTextMapping displayText inputText
         \/ mapping = createAdvancedTextMapping displayText inputText ->
         totalInputLength mapping <= inputPosition ->
         validateInputAtPosition mapping userInput inputPosition
         = nothingLeft).
Proof.
  split; [| split].
  - intros mapping userInput inputPosition Hle.
    unfold validateInputAtPosition.
    apply Nat.leb_le in Hle. rewrite Hle. reflexivity.
  - intros mapping userInput inputPosition Hlt Hnothing.
    apply (validate_in_range_chars mapping userInput) in Hlt.
    rewrite Hnothing in Hlt. apply Hlt. reflexivity.
  - intros displayText inputText mapping userInput inputPosition Hwf Hm Hle.
    rewrite <- (wellFormed_mappings_length _ _ _ Hwf Hm) in Hle.
    unfold validateInputAtPosition.
    apply Nat.leb_le in Hle. rewrite Hle. reflexivity.
Qed.

(** C10. [totalInputLength] is the length of the input text whatever the
    number of entries, which can be smaller (it is zero for an empty
    display text).  [validateInputAtPosition] gives its terminal answer
    exactly for the input positions from [mappings.length] on, and
    [getTargetCharAtPosition] gives the empty string there;
    [totalInputLength] plays no part in either. *)
Theorem totalInputLength_and_mappings_length :
  (forall displayText inputText,
      totalInputLength (createTextMapping displayText inputText)
      = length inputText)
  /\ (forall inputText,
         inputText <> [] ->
         length (mappings (createTextMapping [] inputText))
         < totalInputLength (createTextMapping [] inputText))
  /\ (forall mapping userInput inputPosition,
         length (mappings mapping) <= inputPosition <->
         validateInputAtPosition mapping userInput inputPosition
         = nothingLeft)
  /\ (forall mapping inputPosition,
         length (mappings mapping) <= inputPosition ->
         getTargetCharAtPosition mapping inputPosition = []).
Proof.
  split; [reflexivity |].
  split; [| split].
  - intros [|x inputText] Hne; [contradiction | simpl; lia].
  - intros mapping userInput inputPosition. split.
    + apply validate_out_of_range.
    + intros Hnothing.
      destruct (le_lt_dec (length (mappings mapping)) inputPosition)
        as [? | Hlt]; [assumption |].
      apply (validate_in_range_chars mapping userInput) in Hlt.
      rewrite Hnothing in Hlt. contradiction.
  - apply getTargetChar_out_of_range.
Qed.

End Lengths.

(** ** The theorems on the small dictionary *)


(** 食べる typed as たべる: the compound is taken, 食 gets the three kana of
    its own reading しょく, and べ and る are pushed past the end of the
    input text. *)
Example taberu_mapping :
  map (fun e => (displayIndex e, inputIndex e, inputChar e, isKanji e))
      (mappings (Sample.mappingOf Sample.taberu Sample.taberu_kana))
  = [ (0, 0, JString [Sample.h_ta], true);
      (0, 1, JString [Sample.h_be], true);
      (0, 2, JString [Sample.h_ru], true);
      (1, 3, JUndefined, false);
      (2, 4, JUndefined, false) ].
Proof. reflexivity. Qed.

(** 上手 is registered as じょうず while 上 and 手 alone read うえ and て: the
    pair is not well formed, the three kana of the single readings are
    mapped and the fourth input character is left without an entry. *)
Example jouzu_not_well_formed :
  @wellFormedPair Sample.services Sample.jouzu Sample.jouzu_kana = false
  /\ map inputIndex (mappings (Sample.mappingOf Sample.jouzu Sample.jouzu_kana))
     = [0; 1; 2]
  /\ totalInputLength (Sample.mappingOf Sample.jouzu Sample.jouzu_kana) = 4.
Proof. repeat split. Qed.

Lemma validateInputAtPosition_flags_witness :
  let mapping := Sample.mappingOf [Sample.h_ba] [Sample.h_ba] in
  let result := Sample.validate mapping [Sample.h_ha] 0 in
  isValid result = true /\ isComplete result = false
  /\ canContinue result = true.
Proof.
  pose proof (@validateInputAtPosition_flags Sample.services
                (Sample.mappingOf [Sample.h_ba] [Sample.h_ba])
                [Sample.h_ha] 0 _ eq_refl) as (Hv & Hc & Hn).
  cbv zeta. unfold Sample.validate.
  rewrite Hn, Hc, Hv. repeat split.
Defined.

(** C3 as stated fails: 食べる typed as たべる has five entries (食 alone
    reads しょく, three kana, and べ and る follow) for an input text of
    length three; at input position 3, which is [totalInputLength], the
    validator does not give its terminal answer. *)
Lemma validateInputAtPosition_past_total_counterexample :
  let mapping := Sample.mappingOf Sample.taberu Sample.taberu_kana in
  totalInputLength mapping <= 3
  /\ length (mappings mapping) = 5
  /\ Sample.validate mapping [Sample.h_be] 3
     = {| isValid := false;
          isComplete := false;
          canContinue := false;
          possibleChars := [JUndefined] |}
  /\ Sample.validate mapping [Sample.h_be] 3 <> nothingLeft.
Proof.
  cbv zeta. split; [vm_compute; lia |]. split; [reflexivity |].
  split; [reflexivity |]. vm_compute. discriminate.
Defined.

(** 大学生 typed as だいがくせい is well formed: six entries, and position 6
    is past them. *)
Lemma validateInputAtPosition_past_mappings_witness :
  let mapping :=
    Sample.mappingOf Sample.daigakusei Sample.daigakusei_kana in
  @wellFormedPair Sample.services Sample.daigakusei Sample.daigakusei_kana
  = true
  /\ totalInputLength mapping <= 6
  /\ Sample.validate mapping [Sample.h_da] 6 = nothingLeft.
Proof.
  cbv zeta. split; [reflexivity |]. split; [vm_compute; lia |].
  apply (proj2 (proj2 (@validateInputAtPosition_past_mappings
                         Sample.services))
           Sample.daigakusei Sample.daigakusei_kana).
  - reflexivity.
  - left. reflexivity.
  - vm_compute; lia.
Defined.

(** 大学生 with 大学 and 大学生 both registered: every entry carries 大学生. *)
Lemma findCompound_longest_first_witness :
  length Sample.daigakusei = 3
  /\ @compoundMatches Sample.services Sample.daigakusei
       Sample.daigakusei_kana 0 0 2 = true
  /\ @compoundMatches Sample.services Sample.daigakusei
       Sample.daigakusei_kana 0 0 3 = true
  /\ Forall (fun e =>
               kanjiWord e = Some Sample.daigakusei
               /\ kanjiWord e <> Some (substring Sample.daigakusei 0 2))
            (mappings
               (Sample.mappingOf Sample.daigakusei Sample.daigakusei_kana)).
Proof.
  split; [reflexivity |]. split; [reflexivity |]. split; [reflexivity |].
  exact (proj2 (@findCompound_longest_first Sample.services
                  Sample.daigakusei Sample.daigakusei_kana)
               eq_refl eq_refl eq_refl).
Defined.

(** 木の typed as きの, the cursor on の. *)
Lemma splitTextForDisplay_partition_witness :
  let mapping := Sample.mappingOf Sample.kino Sample.kino_kana in
  let parts := splitTextForDisplay mapping 1 in
  (exists e, In e (mappings mapping) /\ inputIndex e = 1)
  /\ length (completedPart parts) + length (currentChar parts)
       + length (remainingPart parts) = length Sample.kino
  /\ completedPart parts ++ currentChar parts ++ remainingPart parts
     = Sample.kino.
Proof.
  cbv zeta.
  assert (exists e,
             In e (mappings (Sample.mappingOf Sample.kino Sample.kino_kana))
             /\ inputIndex e = 1) as Hown.
  { eexists. split; [right; left; reflexivity | reflexivity]. }
  split; [exact Hown |].
  exact (proj1 (@splitTextForDisplay_partition Sample.services
                  Sample.kino Sample.kino_kana
                  (Sample.mappingOf Sample.kino Sample.kino_kana) 1
                  (or_introl eq_refl))
               Hown).
Defined.




(** 生 typed as せい with the variation なま: the second pass attaches な
    and ま and leaves the other fields alone. *)
Lemma createAdvancedTextMapping_frame_witness :
  map baseFields
      (mappings (Sample.advancedMappingOf [Sample.sei]
                   [Sample.h_se; Sample.h_i]))
  = map baseFields
        (mappings (Sample.mappingOf [Sample.sei] [Sample.h_se; Sample.h_i]))
  /\ map readingVariations
         (mappings (Sample.advancedMappingOf [Sample.sei]
                      [Sample.h_se; Sample.h_i]))
     = [Some [JString [Sample.h_na]]; Some [JString [Sample.h_ma]]].
Proof.
  split; [| reflexivity].
  exact (proj1 (proj2 (proj2 (proj2
           (@createAdvancedTextMapping_frame Sample.services [Sample.sei]
              [Sample.h_se; Sample.h_i]))))).
Defined.

Lemma createTextMapping_displayIndex_order_witness :
  map displayIndex
      (mappings (Sample.mappingOf Sample.daigakusei Sample.daigakusei_kana))
  = [0; 0; 1; 1; 2; 2]
  /\ forall e1 e2,
      nth_error
        (mappings (Sample.mappingOf Sample.daigakusei Sample.daigakusei_kana))
        1 = Some e1 ->
      nth_error
        (mappings (Sample.mappingOf Sample.daigakusei Sample.daigakusei_kana))
        4 = Some e2 ->
      displayIndex e1 <= displayIndex e2.
Proof.
  split; [reflexivity |].
  intros e1 e2.
  apply (proj1 (@createTextMapping_displayIndex_order Sample.services
                  Sample.daigakusei Sample.daigakusei_kana) 1 4 e1 e2).
  lia.
Defined.

(** 木 typed as きの: the display text ends first, one entry for an input
    text of length two; the validator and the target lookup answer for
    position 1 already as they do past the end. *)
Lemma totalInputLength_and_mappings_length_witness :
  let mapping := Sample.mappingOf [Sample.ki] Sample.kino_kana in
  length (mappings mapping) = 1
  /\ totalInputLength mapping = 2
  /\ Sample.validate mapping [Sample.h_no] 1 = nothingLeft
  /\ @getTargetCharAtPosition mapping 1 = [].
Proof.
  cbv zeta.
  destruct (@totalInputLength_and_mappings_length Sample.services)
    as (Htotal & _ & Hvalidate & Htarget).
  split; [reflexivity |].
  split; [apply Htotal |].
  split.
  - apply Hvalidate. vm_compute; lia.
  - apply Htarget. vm_compute; lia.
Defined.

(** * Further properties of the module *)

(** ** Every pair of texts: what the loop always does *)

Lemma Forall_baseFields (P : CharacterMapping -> Prop)
    (l1 : list CharacterMapping) :
  (forall e e', baseFields e' = baseFields e -> P e -> P e') ->
  forall l2,
    map baseFields l2 = map baseFields l1 ->
    Forall P l1 -> Forall P l2.
Proof.
  intros Hbase. induction l1 as [|e l1 IH]; intros [|e' l2] E Hall;
    try discriminate; constructor.
  - cbn [map] in E. assert (baseFields e' = baseFields e) as E1
        by congruence.
    inversion Hall; subst. eapply Hbase; eassumption.
  - cbn [map] in E.
    assert (map baseFields l2 = map baseFields l1) as E' by congruence.
    inversion Hall; subst. apply IH; assumption.
Qed.

Lemma baseFields_fields (e e' : CharacterMapping) :
  baseFields e' = baseFields e ->
  displayIndex e' = displayIndex e /\ inputIndex e' = inputIndex e
  /\ displayChar e' = displayChar e /\ inputChar e' = inputChar e
  /\ isKanji e' = isKanji e /\ kanjiWord e' = kanjiWord e.
Proof.
  unfold baseFields. intros E. injection E as -> -> -> -> -> ->.
  repeat split.
Qed.

Section EveryPair.

Context `{Ext.Services}.

Variables displayText inputText : jsstring.

Lemma advanced_baseFields :
  map baseFields (mappings (createAdvancedTextMapping displayText inputText))
  = map baseFields (mappings (createTextMapping displayText inputText)).
Proof. apply mapiFrom_baseFields. Qed.

(** *** Entries and the end of the input text *)

Lemma compoundChars_reaches (dIdx iIdx wordLength : nat)
    (potentialWord wordReading : jsstring) (chars : jsstring) :
  forall (i cur : nat) (acc : list CharacterMapping),
    Forall (reachesInput inputText) acc ->
    Forall (reachesInput inputText)
      (snd (compoundChars inputText dIdx iIdx wordLength potentialWord
              wordReading chars i cur acc)).
Proof.
  induction chars as [|c rest IH]; intros i cur acc Hacc;
    cbn [compoundChars]; [exact Hacc |].
  destruct (Ext.isKanji [c]); apply IH; apply Forall_app;
    (split; [exact Hacc |]).
  - apply Forall_forall. intros e He. left.
    apply kanjiEntries_In in He. tauto.
  - constructor; [| constructor]. right. cbn. eauto.
Qed.

Lemma singleChar_reaches (c : char16) (st : Cursor) :
  atInput st < length inputText ->
  Forall (reachesInput inputText) (pushed st) ->
  Forall (reachesInput inputText) (pushed (singleChar inputText c st)).
Proof.
  intros Hi Hacc. unfold singleChar.
  destruct (Ext.isKanji [c] && Ext.hasKanaReading [c]);
    [destruct (readingLength (Ext.getKanaReading [c])) |];
    cbn [pushed]; apply Forall_app; (split; [exact Hacc |]).
  - apply Forall_forall. intros e He. left.
    apply kanjiEntries_In in He. tauto.
  - constructor; [| constructor]. left. exact Hi.
  - constructor; [| constructor]. left. exact Hi.
Qed.

Lemma step_reaches (st : Cursor) :
  running displayText inputText st = true ->
  Forall (reachesInput inputText) (pushed st) ->
  Forall (reachesInput inputText) (pushed (step displayText inputText st)).
Proof.
  intros Hrun Hacc. apply running_true in Hrun as (Hi & c & Hc).
  unfold step. rewrite Hc.
  destruct (findCompound displayText inputText (atDisplay st) (atInput st)
              (Nat.min 10 (length displayText - atDisplay st)))
    as [[[wordLength potentialWord] wordReading]|].
  - pose proof (compoundChars_reaches (atDisplay st) (atInput st) wordLength
                  potentialWord wordReading potentialWord 0 (atInput st)
                  (pushed st) Hacc) as Hcc.
    destruct (compoundChars inputText (atDisplay st) (atInput st) wordLength
                potentialWord wordReading potentialWord 0 (atInput st)
                (pushed st)) as [currentInputIndex acc].
    exact Hcc.
  - apply singleChar_reaches; assumption.
Qed.

Lemma loop_reaches (fuel : nat) :
  forall st,
    Forall (reachesInput inputText) (pushed st) ->
    Forall (reachesInput inputText)
      (pushed (loop displayText inputText fuel st)).
Proof.
  induction fuel as [|fuel IH]; intros st Hacc; cbn [loop]; [exact Hacc |].
  destruct (running displayText inputText st) eqn:Hrun; [| exact Hacc].
  apply IH. apply step_reaches; assumption.
Qed.

Lemma base_faithful :
  Forall (faithful displayText inputText)
    (mappings (createTextMapping displayText inputText)).
Proof.
  pose proof (final_Pushed displayText inputText) as [_ _ Ha _].
  assert (Forall (reachesInput inputText)
            (mappings (createTextMapping displayText inputText))) as Hr
      by (apply loop_reaches; constructor).
  rewrite Forall_forall in *. intros e He.
  destruct (Ha e He) as (Hd & Hi & _).
  split; [exact Hd | split; [exact Hi | apply Hr; exact He]].
Qed.

Lemma built_faithful (mapping : TextMapping) :
  mapping = createTextMapping displayText inputText
  \/ mapping = createAdvancedTextMapping displayText inputText ->
  Forall (faithful displayText inputText) (mappings mapping).
Proof.
  intros [-> | ->]; [apply base_faithful |].
  eapply Forall_baseFields;
    [| apply advanced_baseFields | apply base_faithful].
  intros e e' E. apply baseFields_fields in E as (Ed & Ei & Ec & Ex & Ek & Ew).
  unfold faithful, reachesInput. rewrite Ed, Ei, Ec, Ex, Ek, Ew. tauto.
Qed.

Lemma built_Grounded (mapping : TextMapping) :
  mapping = createTextMapping displayText inputText
  \/ mapping = createAdvancedTextMapping displayText inputText ->
  Grounded displayText mapping.
Proof.
  intros [-> | ->]; [apply base_Grounded | apply advanced_Grounded].
Qed.

(** *** At least one entry for every turn *)

Lemma kanjiEntries_first (dIdx : nat) (ch word : jsstring)
    (start len : nat) :
  start < length inputText -> 1 <= len ->
  kanjiEntries inputText dIdx ch word start len <> [].
Proof.
  intros Hs Hl. destruct len as [|len]; [lia |].
  unfold kanjiEntries. cbn [seq filter].
  rewrite Nat.add_0_r.
  destruct (start <? length inputText) eqn:E.
  - discriminate.
  - apply Nat.ltb_ge in E. lia.
Qed.

Lemma compoundChars_grows (dIdx iIdx wordLength : nat)
    (potentialWord wordReading : jsstring) (c : char16) (rest : jsstring)
    (i cur : nat) (acc : list CharacterMapping) :
  cur < length inputText ->
  exists new,
    snd (compoundChars inputText dIdx iIdx wordLength potentialWord
           wordReading (c :: rest) i cur acc) = acc ++ new
    /\ new <> [].
Proof.
  intros Hcur. cbn [compoundChars].
  destruct (Ext.isKanji [c]).
  - match goal with
    | |- context [compoundChars _ _ _ _ _ _ _ _ ?cur' (acc ++ ?block)] =>
        destruct (compoundChars_extends inputText dIdx iIdx wordLength
                    potentialWord wordReading rest (S i) cur' (acc ++ block))
          as (new & -> & _);
        exists (block ++ new);
        assert (block <> []) as Hblock
    end.
    { apply kanjiEntries_first; [assumption |].
      destruct (readingLength (Ext.getKanaReading [c])) eqn:E.
      - eapply readingLength_positive; eassumption.
      - destruct (_ / _); lia. }
    rewrite app_assoc. split; [reflexivity |].
    intros E. apply app_eq_nil in E as [E _]. contradiction.
  - match goal with
    | |- context [compoundChars _ _ _ _ _ _ _ _ ?cur' (acc ++ ?block)] =>
        destruct (compoundChars_extends inputText dIdx iIdx wordLength
                    potentialWord wordReading rest (S i) cur' (acc ++ block))
          as (new & -> & _);
        exists (block ++ new)
    end.
    rewrite app_assoc. split; [reflexivity | discriminate].
Qed.

Lemma step_grows (st : Cursor) :
  running displayText inputText st = true ->
  exists new,
    pushed (step displayText inputText st) = pushed st ++ new /\ new <> [].
Proof.
  intros Hrun. apply running_true in Hrun as (Hi & c & Hc).
  unfold step. rewrite Hc.
  destruct (findCompound displayText inputText (atDisplay st) (atInput st)
              (Nat.min 10 (length displayText - atDisplay st)))
    as [[[wordLength potentialWord] wordReading]|] eqn:F.
  - apply findCompound_window in F as (Hl & _ & Hlen & _).
    destruct potentialWord as [|c' rest]; [simpl in Hlen; lia |].
    destruct (compoundChars_grows (atDisplay st) (atInput st) wordLength
                (c' :: rest) wordReading c' rest 0 (atInput st) (pushed st)
                Hi) as (new & Hnew & Hne).
    destruct (compoundChars inputText (atDisplay st) (atInput st) wordLength
                (c' :: rest) wordReading (c' :: rest) 0 (atInput st)
                (pushed st)) as [currentInputIndex acc].
    exists new. auto.
  - unfold singleChar.
    destruct (Ext.isKanji [c] && Ext.hasKanaReading [c]);
      [destruct (readingLength (Ext.getKanaReading [c])) as [n|] eqn:E |];
      cbn [pushed]; eexists; (split; [reflexivity |]);
      try discriminate.
    apply kanjiEntries_first; [assumption |].
    eapply readingLength_positive; eassumption.
Qed.

Lemma loop_grows (fuel : nat) :
  forall st,
  exists more,
    pushed (loop displayText inputText fuel st) = pushed st ++ more.
Proof.
  induction fuel as [|fuel IH]; intros st; cbn [loop].
  - exists []. symmetry. apply app_nil_r.
  - destruct (running displayText inputText st) eqn:Hrun.
    + destruct (step_grows st Hrun) as (new & Hnew & _).
      destruct (IH (step displayText inputText st)) as (more & ->).
      exists (new ++ more). rewrite Hnew, app_assoc. reflexivity.
    + exists []. symmetry. apply app_nil_r.
Qed.

End EveryPair.

Lemma StronglySorted_inputIndex_NoDup (l : list CharacterMapping) :
  StronglySorted before l -> NoDup (map inputIndex l).
Proof.
  induction 1 as [|x l S IH Hx]; cbn [map]; constructor; [| exact IH].
  intros Hin. apply in_map_iff in Hin as (y & Ey & Hy).
  rewrite Forall_forall in Hx. destruct (Hx y Hy) as (_ & Hlt & _). lia.
Qed.

Lemma StronglySorted_inputIndex_lower (l : list CharacterMapping) :
  forall base a e,
    StronglySorted before l ->
    Forall (fun x => base <= inputIndex x) l ->
    nth_error l a = Some e -> base + a <= inputIndex e.
Proof.
  induction l as [|x l IH]; intros base a e S Hbase Ha;
    [destruct a; discriminate |].
  apply StronglySorted_inv in S as [Hs Hx].
  inversion Hbase as [|? ? Hb Hrest]; subst.
  destruct a as [|a]; cbn in Ha.
  - injection Ha as <-. lia.
  - replace (base + S a) with ((base + 1) + a) by lia.
    apply IH; [exact Hs | | exact Ha].
    eapply Forall_impl; [| exact Hx].
    intros y (_ & Hlt & _). lia.
Qed.

Section EveryPairTheorems.

Context `{Ext.Services}.

(** X1. Whatever the two texts, the input indices of the entries increase
    strictly along the mapping: no input index occurs twice, and the input
    index of an entry is at least its position in the array. *)
Theorem mapping_inputIndex_increasing (displayText inputText : jsstring)
    (mapping : TextMapping) :
  mapping = createTextMapping displayText inputText
  \/ mapping = createAdvancedTextMapping displayText inputText ->
  (forall a b e1 e2,
      a < b ->
      nth_error (mappings mapping) a = Some e1 ->
      nth_error (mappings mapping) b = Some e2 ->
      inputIndex e1 < inputIndex e2)
  /\ NoDup (map inputIndex (mappings mapping))
  /\ (forall a e, nth_error (mappings mapping) a = Some e ->
                  a <= inputIndex e).
Proof.
  intros Hm.
  pose proof (grounded_sorted _ _ (built_Grounded _ _ _ Hm)) as Hs.
  split; [| split].
  - intros a b e1 e2 Hab H1 H2.
    apply (StronglySorted_nth before _ a b e1 e2 Hs Hab H1 H2).
  - apply StronglySorted_inputIndex_NoDup. exact Hs.
  - intros a e Ha.
    apply (StronglySorted_inputIndex_lower (mappings mapping) 0 a e Hs);
      [| exact Ha].
    apply Forall_forall. intros; lia.
Qed.

(** X2. Whatever the two texts, every entry holds the display character at
    its display index and the input character at its input index.  An entry
    marked kanji always holds a character of the input text; an entry whose
    input character is [undefined] is an entry pushed for a character of a
    compound that is no kanji, at an input index past the input text. *)
Theorem mapping_entries_faithful (displayText inputText : jsstring)
    (mapping : TextMapping) :
  mapping = createTextMapping displayText inputText
  \/ mapping = createAdvancedTextMapping displayText inputText ->
  Forall (fun e =>
            (exists c, nth_error displayText (displayIndex e) = Some c
                       /\ displayChar e = [c])
            /\ inputChar e = charAt inputText (inputIndex e)
            /\ (isKanji e = true ->
                exists x, nth_error inputText (inputIndex e) = Some x
                          /\ inputChar e = JString [x])
            /\ (inputChar e = JUndefined ->
                isKanji e = false
                /\ (exists word, kanjiWord e = Some word)
                /\ length inputText <= inputIndex e))
         (mappings mapping).
Proof.
  intros Hm. eapply Forall_impl; [| apply (built_faithful _ _ _ Hm)].
  intros e (Hd & Hi & Hr).
  split; [exact Hd |]. split; [exact Hi |].
  unfold charAt in Hi.
  destruct (nth_error inputText (inputIndex e)) as [x|] eqn:Ex.
  - split; [intros _; eauto |].
    intros Hu. rewrite Hu in Hi. discriminate.
  - apply nth_error_None in Ex.
    destruct Hr as [Hlt | (Hk & Hw)]; [lia |].
    split; [intros Hk'; congruence | auto].
Qed.

(** X3. The loop of [createTextMapping] ends: after [displayText.length]
    turns at most its condition is false, so the display cursor stands at
    the end of the display text or the input cursor at or past the end of
    the input text, and further turns change nothing.  The display cursor
    never passes the end of the display text. *)
Theorem createTextMapping_terminates (displayText inputText : jsstring) :
  let final := finalCursor displayText inputText in
  (forall fuel, length displayText <= fuel ->
     loop displayText inputText fuel start = final)
  /\ (atDisplay final = length displayText
      \/ length inputText <= atInput final)
  /\ atDisplay final <= length displayText.
Proof.
  intros final.
  destruct (loop_fuel_enough displayText inputText) as [Hstop Hfuel].
  pose proof (final_Pushed displayText inputText) as [Hb _ _ _].
  fold final in Hstop, Hb.
  split; [exact Hfuel |]. split; [| exact Hb].
  unfold running in Hstop. apply andb_false_iff in Hstop.
  destruct Hstop as [Hd | Hi].
  - apply Nat.ltb_ge in Hd. left. lia.
  - apply Nat.ltb_ge in Hi. right. exact Hi.
Qed.

(** X4. The mapping has no entry exactly when one of the two texts is
    empty: with both texts non-empty the first turn of the loop already
    pushes an entry. *)
Theorem mapping_empty_iff (displayText inputText : jsstring)
    (mapping : TextMapping) :
  mapping = createTextMapping displayText inputText
  \/ mapping = createAdvancedTextMapping displayText inputText ->
  (mappings mapping = [] <-> displayText = [] \/ inputText = []).
Proof.
  intros Hm.
  assert (mappings (createTextMapping displayText inputText) = []
          <-> displayText = [] \/ inputText = []) as Hbase.
  { unfold createTextMapping, finalCursor. cbn [mappings]. split.
    - intros Hnil.
      destruct displayText as [|c d]; [auto |].
      destruct inputText as [|x i]; [auto |].
      exfalso. cbn [length loop] in Hnil.
      assert (running (c :: d) (x :: i) start = true) as Hrun by reflexivity.
      rewrite Hrun in Hnil.
      destruct (step_grows (c :: d) (x :: i) start Hrun)
        as (new & Hnew & Hne).
      destruct (loop_grows (c :: d) (x :: i) (length d)
                  (step (c :: d) (x :: i) start)) as (more & Hmore).
      rewrite Hmore, Hnew in Hnil. cbn [start pushed app] in Hnil.
      apply app_eq_nil in Hnil as [Hnil _]. contradiction.
    - intros [-> | ->]; [reflexivity |].
      destruct (length displayText) as [|n] eqn:El; cbn [loop];
        [reflexivity |].
      unfold running. cbn [start atInput atDisplay length].
      rewrite andb_false_r. reflexivity. }
  destruct Hm as [-> | ->]; [exact Hbase |].
  rewrite <- Hbase.
  pose proof (advanced_baseFields displayText inputText) as E.
  split; intros Hnil; rewrite Hnil in E.
  - destruct (mappings (createTextMapping displayText inputText));
      [reflexivity | discriminate].
  - destruct (mappings (createAdvancedTextMapping displayText inputText));
      [reflexivity | discriminate].
Qed.

End EveryPairTheorems.

(** ** The look-ups on a mapping *)

Lemma map_index_baseFields (l1 : list CharacterMapping) :
  forall l2,
    map baseFields l2 = map baseFields l1 ->
    map inputIndex l2 = map inputIndex l1
    /\ map displayIndex l2 = map displayIndex l1.
Proof.
  induction l1 as [|e l1 IH]; intros [|e' l2] E; try discriminate;
    [split; reflexivity |].
  cbn [map] in E.
  assert (baseFields e' = baseFields e) as E1 by congruence.
  assert (map baseFields l2 = map baseFields l1) as E' by congruence.
  apply baseFields_fields in E1 as (Ed & Ei & _).
  cbn [map]. destruct (IH l2 E') as [-> ->]. rewrite Ed, Ei.
  split; reflexivity.
Qed.

(** [find] returns the first element that passes the test. *)
Lemma find_first {A : Type} (f : A -> bool) (l : list A) :
  forall p x,
    nth_error l p = Some x -> f x = true ->
    exists q y, q <= p /\ nth_error l q = Some y /\ find f l = Some y.
Proof.
  induction l as [|z l IH]; intros p x Hp Hf; [destruct p; discriminate |].
  cbn [find]. destruct (f z) eqn:Ez.
  - exists 0, z. repeat split. lia.
  - destruct p as [|p]; cbn in Hp.
    + injection Hp as ->. congruence.
    + destruct (IH p x Hp Hf) as (q & y & Hq & Hy & Hfind).
      exists (S q), y. repeat split; [lia | exact Hy | exact Hfind].
Qed.

Lemma chars_of_text (s : jsstring) :
  forall k a,
    a + k <= length s ->
    flat_map (fun p => substring s p (p + 1)) (seq a k)
    = firstn k (skipn a s).
Proof.
  induction k as [|k IH]; intros a Hfit; cbn [seq flat_map].
  - reflexivity.
  - destruct (nth_error s a) as [x|] eqn:Ex;
      [| apply nth_error_None in Ex; lia].
    rewrite IH by lia.
    rewrite substring_le by lia.
    replace (a + 1 - a) with 1 by lia.
    rewrite (skipn_nth s a x Ex). reflexivity.
Qed.

Section Lookups.

Context `{Ext.Services}.

Lemma wellFormed_Exact (displayText inputText : jsstring)
    (mapping : TextMapping) :
  wellFormedPair displayText inputText = true ->
  mapping = createTextMapping displayText inputText
  \/ mapping = createAdvancedTextMapping displayText inputText ->
  Exact displayText inputText mapping.
Proof.
  intros Hwf Hm.
  apply wellFormedPair_lengths in Hwf as [Hreg Htotal].
  destruct (createTextMapping_aligned displayText inputText Hreg Htotal)
    as ([_ _ Hin Hdis] & _ & _).
  change (pushed (finalCursor displayText inputText))
    with (mappings (createTextMapping displayText inputText)) in Hin, Hdis.
  assert (map inputIndex (mappings mapping) = seq 0 (length inputText)
          /\ map displayIndex (mappings mapping)
             = map displayIndex
                 (mappings (createTextMapping displayText inputText)))
    as [Hi Hd].
  { destruct Hm as [-> | ->]; [auto |].
    destruct (map_index_baseFields _ _
                (advanced_baseFields displayText inputText)) as [-> ->].
    auto. }
  constructor.
  - apply (built_Grounded _ _ _ Hm).
  - destruct Hm as [-> | ->]; reflexivity.
  - exact Hi.
  - eapply Forall_impl; [| apply (built_faithful _ _ _ Hm)].
    intros e (_ & He & _). exact He.
  - intros k Hk. rewrite Hd. apply Hdis. exact Hk.
Qed.

Section OnExact.

Variables (text input : jsstring) (mapping : TextMapping).

Hypothesis HE : Exact text input mapping.

Lemma Exact_length : length (mappings mapping) = length input.
Proof.
  rewrite <- (length_map inputIndex), (exact_input _ _ _ HE).
  apply length_seq.
Qed.

Lemma Exact_nth (p : nat) (e : CharacterMapping) :
  nth_error (mappings mapping) p = Some e -> inputIndex e = p.
Proof.
  intros Hp.
  assert (p < length input) as Hlt
      by (rewrite <- Exact_length; apply nth_error_Some; congruence).
  apply (map_nth_error inputIndex) in Hp.
  rewrite (exact_input _ _ _ HE), nth_error_seq in Hp.
  destruct (p <? length input) eqn:E; [| apply Nat.ltb_ge in E; lia].
  injection Hp as Hp. lia.
Qed.

Lemma Exact_In (e : CharacterMapping) :
  In e (mappings mapping) ->
  nth_error (mappings mapping) (inputIndex e) = Some e.
Proof.
  intros Hin. apply In_nth_error in Hin as (q & Hq).
  rewrite (Exact_nth q e Hq). exact Hq.
Qed.

Lemma Exact_find (p : nat) :
  find (fun e => inputIndex e =? p) (mappings mapping)
  = nth_error (mappings mapping) p.
Proof.
  destruct (find (fun e => inputIndex e =? p) (mappings mapping))
    as [e|] eqn:E.
  - apply find_owner_Some in E as [Hin <-]. symmetry. apply Exact_In.
    exact Hin.
  - destruct (nth_error (mappings mapping) p) as [e|] eqn:Ep;
      [| reflexivity].
    pose proof (proj1 (find_owner_None _ _) E e (nth_error_In _ _ Ep)) as Hne.
    destruct (Hne (Exact_nth p e Ep)).
Qed.

End OnExact.

Lemma lookups_past_the_end (displayText inputText : jsstring)
    (mapping : TextMapping) :
  mapping = createTextMapping displayText inputText
  \/ mapping = createAdvancedTextMapping displayText inputText ->
  (forall p,
      length (mappings mapping) <= p ->
      getDisplayPositionFromInput mapping p = length displayText)
  /\ (forall k,
         length displayText <= k ->
         getInputPositionFromDisplay mapping k = 0).
Proof.
  intros Hm. destruct (built_Grounded _ _ _ Hm) as [Ht Hc Hs].
  rewrite Forall_forall in Hc. split.
  - intros p Hp. unfold getDisplayPositionFromInput.
    apply Nat.leb_le in Hp. rewrite Hp, Ht. reflexivity.
  - intros k Hk. unfold getInputPositionFromDisplay.
    destruct (find (fun m => displayIndex m =? k) (mappings mapping))
      as [e|] eqn:E; [| reflexivity].
    apply find_some in E as [He Hd]. apply Nat.eqb_eq in Hd.
    destruct (Hc e He) as (c & Hn & _).
    assert (displayIndex e < length displayText)
      by (apply nth_error_Some; congruence).
    lia.
Qed.


(** X6. For a mapping built from a well-formed pair, going from a display
    position to its input position and back gives the display position
    again, and going from an input position to its display position and
    back gives the first input position of that display character, which
    is never after the position one started from. *)
Theorem position_round_trip (displayText inputText : jsstring)
    (mapping : TextMapping) :
  wellFormedPair displayText inputText = true ->
  mapping = createTextMapping displayText inputText
  \/ mapping = createAdvancedTextMapping displayText inputText ->
  (forall k,
      k < length displayText ->
      getDisplayPositionFromInput mapping
        (getInputPositionFromDisplay mapping k) = k)
  /\ (forall p,
         getInputPositionFromDisplay mapping
           (getDisplayPositionFromInput mapping p) <= p).
Proof.
  intros Hwf Hm.
  pose proof (wellFormed_Exact _ _ _ Hwf Hm) as HE.
  split.
  - intros k Hk.
    pose proof (exact_cover _ _ _ HE k Hk) as Hin.
    apply in_map_iff in Hin as (e & Hd & He).
    apply In_nth_error in He as (p & Hp).
    destruct (find_first (fun m => displayIndex m =? k) (mappings mapping)
                p e Hp) as (q & y & _ & Hy & Hfind);
      [apply Nat.eqb_eq; exact Hd |].
    unfold getInputPositionFromDisplay. rewrite Hfind.
    pose proof (find_some _ _ Hfind) as [_ Hyk]. apply Nat.eqb_eq in Hyk.
    rewrite (Exact_nth _ _ _ HE q y Hy).
    unfold getDisplayPositionFromInput.
    destruct (length (mappings mapping) <=? q) eqn:E.
    + apply Nat.leb_le in E.
      assert (q < length (mappings mapping))
        by (apply nth_error_Some; congruence).
      lia.
    + rewrite Hy. exact Hyk.
  - intros p.
    destruct (le_lt_dec (length (mappings mapping)) p) as [Hout | Hin].
    + destruct (lookups_past_the_end _ _ _ Hm) as (Hlen & Hzero).
      rewrite (Hlen p Hout), Hzero; lia.
    + unfold getDisplayPositionFromInput.
      destruct (length (mappings mapping) <=? p) eqn:E;
        [apply Nat.leb_le in E; lia |].
      destruct (nth_error (mappings mapping) p) as [e|] eqn:Ep;
        [| apply nth_error_None in Ep; lia].
      destruct (find_first (fun m => displayIndex m =? displayIndex e)
                  (mappings mapping) p e Ep (Nat.eqb_refl _))
        as (q & y & Hq & Hy & Hfind).
      unfold getInputPositionFromDisplay. rewrite Hfind.
      rewrite (Exact_nth _ _ _ HE q y Hy). exact Hq.
Qed.

End Lookups.

Section WellFormedLookups.

Context `{Ext.Services}.

(** X7. For a mapping built from a well-formed pair the target character
    at an input position is the character of the input text at that
    position (the empty string past the end): the targets of the positions
    0, 1, ... spell the input text. *)
Theorem getTargetCharAtPosition_spells_input
    (displayText inputText : jsstring) (mapping : TextMapping) :
  wellFormedPair displayText inputText = true ->
  mapping = createTextMapping displayText inputText
  \/ mapping = createAdvancedTextMapping displayText inputText ->
  (forall p,
      getTargetCharAtPosition mapping p = substring inputText p (p + 1))
  /\ flat_map (getTargetCharAtPosition mapping)
       (seq 0 (totalInputLength mapping))
     = inputText.
Proof.
  intros Hwf Hm.
  pose proof (wellFormed_Exact _ _ _ Hwf Hm) as HE.
  assert (forall p,
             getTargetCharAtPosition mapping p
             = substring inputText p (p + 1)) as Hchar.
  { intros p. unfold getTargetCharAtPosition.
    rewrite substring_le by lia. replace (p + 1 - p) with 1 by lia.
    destruct (length (mappings mapping) <=? p) eqn:E.
    - apply Nat.leb_le in E. rewrite (Exact_length _ _ _ HE) in E.
      rewrite skipn_all2 by lia. reflexivity.
    - apply Nat.leb_gt in E.
      destruct (nth_error (mappings mapping) p) as [e|] eqn:Ep;
        [| apply nth_error_None in Ep; lia].
      pose proof (exact_chars _ _ _ HE) as Hc.
      rewrite Forall_forall in Hc.
      rewrite (Hc e (nth_error_In _ _ Ep)), (Exact_nth _ _ _ HE p e Ep).
      unfold charAt.
      destruct (nth_error inputText p) as [x|] eqn:Ex.
      + rewrite (skipn_nth inputText p x Ex). reflexivity.
      + apply nth_error_None in Ex.
        rewrite (Exact_length _ _ _ HE) in E. lia. }
  split; [exact Hchar |].
  rewrite (exact_total _ _ _ HE).
  rewrite (flat_map_ext _ _ Hchar).
  rewrite chars_of_text by lia.
  cbn [skipn]. apply firstn_all.
Qed.

(** X8. For a mapping built from a well-formed pair the three parts of
    [splitTextForDisplay] are cut at the display position that
    [getDisplayPositionFromInput] gives for the input position: the
    completed part is the display text before it, the current character
    the one there and the remaining part what follows; past the last entry
    the completed part is the whole text. *)
Theorem splitTextForDisplay_at_display_position
    (displayText inputText : jsstring) (mapping : TextMapping)
    (inputPosition : nat) :
  wellFormedPair displayText inputText = true ->
  mapping = createTextMapping displayText inputText
  \/ mapping = createAdvancedTextMapping displayText inputText ->
  let k := getDisplayPositionFromInput mapping inputPosition in
  splitTextForDisplay mapping inputPosition
  = {| completedPart := substring displayText 0 k;
       currentChar := substring displayText k (k + 1);
       remainingPart := substringFrom displayText (k + 1) |}.
Proof.
  intros Hwf Hm k.
  pose proof (wellFormed_Exact _ _ _ Hwf Hm) as HE.
  pose proof (exact_grounded _ _ _ HE) as HG.
  pose proof (Exact_find _ _ _ HE inputPosition) as Hfind.
  subst k. unfold getDisplayPositionFromInput.
  destruct (nth_error (mappings mapping) inputPosition) as [e|] eqn:Ep.
  - assert (inputPosition < length (mappings mapping)) as Hlt
        by (apply nth_error_Some; congruence).
    apply Nat.leb_gt in Hlt. rewrite Hlt.
    rewrite (splitTextForDisplay_owner _ _ _ Hfind).
    rewrite (grounded_text _ _ HG).
    pose proof (grounded_chars _ _ HG) as Hc.
    rewrite Forall_forall in Hc.
    destruct (Hc e (nth_error_In _ _ Ep)) as (c & Hn & ->).
    f_equal. rewrite substring_le by lia.
    replace (displayIndex e + 1 - displayIndex e) with 1 by lia.
    rewrite (skipn_nth displayText _ c Hn). reflexivity.
  - apply nth_error_None in Ep. apply Nat.leb_le in Ep. rewrite Ep.
    rewrite (splitTextForDisplay_finished _ _ Hfind).
    rewrite (grounded_text _ _ HG).
    rewrite substring_0, firstn_all, substringFrom_skipn.
    rewrite substring_le by lia.
    rewrite !skipn_all2 by lia. rewrite firstn_nil. reflexivity.
Qed.

End WellFormedLookups.

(** ** The validator: what the flags always satisfy *)

Section Flags.

Context `{Ext.Services}.

Lemma basicPossibleChars_head (mapping : TextMapping)
    (target : CharacterMapping) (inputPosition : nat) :
  exists rest,
    basicPossibleChars mapping target inputPosition
    = inputChar target :: rest.
Proof.
  unfold basicPossibleChars, collectedChars, arrayFromSet.
  cbn [app setInsertAll includes existsb]. eauto.
Qed.

(** X9. At a position that holds an entry, typing exactly the input
    character of the entry is valid and complete, whatever the sequential
    validator and the alternative readings say. *)
Theorem validateInputAtPosition_exact_match (mapping : TextMapping)
    (inputPosition : nat) (target : CharacterMapping) (s : jsstring) :
  nth_error (mappings mapping) inputPosition = Some target ->
  inputChar target = JString s ->
  let result := validateInputAtPosition mapping s inputPosition in
  isValid result = true /\ isComplete result = true.
Proof.
  intros Ht Hs result. subst result.
  rewrite (validate_in_range _ _ _ _ Ht). cbv zeta.
  cbn [isValid isComplete]. rewrite Hs.
  destruct (basicPossibleChars_head mapping target inputPosition)
    as (rest & ->).
  rewrite Hs. cbn [includes existsb jsval_eqb].
  rewrite jsstring_eqb_refl. split; reflexivity.
Qed.

(** X10. For every mapping, user input and input position, a complete
    answer is a valid answer and an answer that can continue is a valid
    answer; past the last entry the three flags are false. *)
Theorem validateInputAtPosition_flags_imply_valid (mapping : TextMapping)
    (userInput : jsstring) (inputPosition : nat) :
  let result := validateInputAtPosition mapping userInput inputPosition in
  (isComplete result = true -> isValid result = true)
  /\ (canContinue result = true -> isValid result = true).
Proof.
  intros result. subst result.
  destruct (nth_error (mappings mapping) inputPosition) as [target|] eqn:Ht.
  - rewrite (validate_in_range _ _ _ _ Ht). cbv zeta.
    cbn [isValid isComplete canContinue].
    destruct (basicPossibleChars_head mapping target inputPosition)
      as (rest & ->).
    cbn [includes existsb].
    destruct (jsval_eqb (JString userInput) (inputChar target)),
             (existsb (jsval_eqb (JString userInput)) rest),
             (Ext.isValid
                (Ext.validateJapaneseInput userInput (inputChar target))),
             (Ext.isComplete
                (Ext.validateJapaneseInput userInput (inputChar target))),
             (Ext.canContinue
                (Ext.validateJapaneseInput userInput (inputChar target)));
      cbn; auto.
  - apply nth_error_None in Ht.
    rewrite (validate_out_of_range _ _ _ Ht). cbn. split; discriminate.
Qed.

(** X11. At a position that holds an entry, a user input that is one of
    the possible characters without being the target (the character of an
    alternative reading or a reading variation) is valid, but it completes
    the position only if the sequential validator says complete and valid;
    otherwise the answer is valid, not complete and can continue. *)
Theorem validateInputAtPosition_alternative (mapping : TextMapping)
    (userInput : jsstring) (inputPosition : nat)
    (target : CharacterMapping) :
  nth_error (mappings mapping) inputPosition = Some target ->
  In (JString userInput)
     (alternativeChars mapping target inputPosition
        ++ match readingVariations target with
           | Some variations => variations
           | None => []
           end) ->
  inputChar target <> JString userInput ->
  let sequentialResult :=
    Ext.validateJapaneseInput userInput (inputChar target) in
  let result := validateInputAtPosition mapping userInput inputPosition in
  isValid result = true
  /\ isComplete result
     = Ext.isComplete sequentialResult && Ext.isValid sequentialResult
  /\ (isComplete result = false -> canContinue result = true).
Proof.
  intros Ht Halt Hne sequentialResult result. subst result.
  rewrite (validate_in_range _ _ _ _ Ht). cbv zeta.
  cbn [isValid isComplete canContinue]. fold sequentialResult.
  assert (includes (basicPossibleChars mapping target inputPosition)
            (JString userInput) = true) as ->.
  { apply includes_In. unfold basicPossibleChars.
    apply arrayFromSet_In. unfold collectedChars.
    apply in_or_app. right. exact Halt. }
  assert (jsval_eqb (JString userInput) (inputChar target) = false) as ->.
  { destruct (jsval_eqb (JString userInput) (inputChar target)) eqn:E;
      [| reflexivity].
    apply jsval_eqb_eq in E. congruence. }
  cbn [orb andb]. repeat split.
  intros ->. reflexivity.
Qed.

(** X12. At a position that holds an entry the returned [possibleChars]
    starts with the input character of the entry: the list is never empty
    and the target comes first, before the alternatives and the hints of
    the sequential validator. *)
Theorem validateInputAtPosition_target_first (mapping : TextMapping)
    (userInput : jsstring) (inputPosition : nat)
    (target : CharacterMapping) :
  nth_error (mappings mapping) inputPosition = Some target ->
  exists rest,
    possibleChars (validateInputAtPosition mapping userInput inputPosition)
    = inputChar target :: rest.
Proof.
  intros Ht. rewrite (validate_in_range _ _ _ _ Ht). cbv zeta.
  cbn [possibleChars].
  destruct (basicPossibleChars_head mapping target inputPosition)
    as (rest & ->).
  unfold arrayFromSet. cbn [app setInsertAll includes existsb]. eauto.
Qed.

End Flags.

(** ** The reading variations of the second pass *)

Lemma filterBoolean_chars (variations : list jsstring) (index : nat) :
  filterBoolean (map (fun variation => charAt variation index) variations)
  = flat_map (fun variation =>
                match nth_error variation index with
                | Some c => [JString [c]]
                | None => []
                end)
             variations.
Proof.
  unfold filterBoolean.
  induction variations as [|v variations IH]; cbn [map filter flat_map].
  - reflexivity.
  - rewrite <- IH. unfold charAt.
    destruct (nth_error v index); reflexivity.
Qed.

Section Variations.

Context `{Ext.Services}.

(** X13. In the mapping of [createAdvancedTextMapping] an entry that is not
    marked kanji has no [readingVariations]; an entry marked kanji at array
    position [index] has one single-character string for each variation
    that is longer than [index], in the order of the variations, and
    nothing for the shorter ones: [undefined] is never stored. *)
Theorem createAdvancedTextMapping_variations
    (displayText baseInputText : jsstring) (index : nat)
    (e : CharacterMapping) :
  nth_error
    (mappings (createAdvancedTextMapping displayText baseInputText)) index
  = Some e ->
  (isKanji e = false -> readingVariations e = None)
  /\ (isKanji e = true ->
      readingVariations e
      = Some (flat_map
                (fun variation =>
                   match nth_error variation index with
                   | Some c => [JString [c]]
                   | None => []
                   end)
                (Ext.generateReadingVariations displayText baseInputText)))
  /\ (forall variations,
         readingVariations e = Some variations ->
         length variations
         <= length (Ext.generateReadingVariations displayText baseInputText)
         /\ Forall (fun v => exists c, v = JString [c]) variations).
Proof.
  intros He.
  unfold createAdvancedTextMapping, withMappings, mapi in He.
  cbn [mappings] in He. rewrite mapiFrom_nth in He. cbn [Nat.add] in He.
  destruct (nth_error (mappings (createTextMapping displayText baseInputText))
              index) as [b|] eqn:Eb; [| discriminate].
  cbn [option_map] in He. injection He as <-.
  pose proof (final_Pushed displayText baseInputText) as [_ _ Ha _].
  rewrite Forall_forall in Ha.
  destruct (Ha b (nth_error_In _ _ Eb)) as (_ & _ & Hnone).
  unfold attachVariations.
  destruct (isKanji b) eqn:Hk; cbn [isKanji readingVariations].
  - split; [discriminate |]. rewrite filterBoolean_chars.
    split; [reflexivity |].
    intros variations E. injection E as <-.
    generalize (Ext.generateReadingVariations displayText baseInputText).
    induction l as [|v l [IHl IHf]]; cbn [flat_map length];
      [split; [lia | constructor] |].
    destruct (nth_error v index) as [c|]; cbn [app length].
    + split; [lia |]. constructor; [eauto | exact IHf].
    + split; [lia | exact IHf].
  - rewrite Hk, Hnone. split; [reflexivity |].
    split; [discriminate | discriminate].
Qed.

End Variations.

(** ** The long text screen *)

Module LT := LongTextModeScreen.

Section Screen.

Context `{Ext.Services}.

Lemma exact_match_complete (mapping : TextMapping) (inputPosition : nat)
    (target : CharacterMapping) (s : jsstring) :
  nth_error (mappings mapping) inputPosition = Some target ->
  inputChar target = JString s ->
  isComplete (validateInputAtPosition mapping s inputPosition) = true.
Proof.
  intros Ht Hs. rewrite (validate_in_range _ _ _ _ Ht). cbv zeta.
  cbn [isComplete]. rewrite Hs. cbn [jsval_eqb].
  rewrite jsstring_eqb_refl. reflexivity.
Qed.

Lemma complete_in_range (mapping : TextMapping) (text : jsstring)
    (inputPosition : nat) :
  isComplete (validateInputAtPosition mapping text inputPosition) = true ->
  inputPosition < length (mappings mapping).
Proof.
  intros Hc.
  destruct (le_lt_dec (length (mappings mapping)) inputPosition)
    as [Hout | Hin]; [| exact Hin].
  rewrite (validate_out_of_range _ _ _ Hout) in Hc. discriminate.
Qed.

(** The four ways a call of the handler can go. *)
Lemma handleInputChange_cases (g : LT.Game) (text : jsstring) :
  let g' := LT.handleInputChange g text in
  g' = g
  \/ (exists mapping,
         LT.textMapping g = Some mapping
         /\ LT.gameState g = LT.playing
         /\ isComplete
              (validateInputAtPosition mapping text (LT.currentPosition g))
            = true
         /\ LT.currentPosition g' = LT.currentPosition g + 1
         /\ LT.score g'
            = LT.score g + 5 * (LT.combo g + 1)
              + (if totalInputLength mapping <=? LT.currentPosition g + 1
                 then totalInputLength mapping * 10 else 0)
         /\ LT.combo g' = LT.combo g + 1
         /\ LT.lives g' = LT.lives g
         /\ LT.errors g' = LT.errors g
         /\ LT.userInput g' = []
         /\ LT.gameState g'
            = (if totalInputLength mapping <=? LT.currentPosition g + 1
               then LT.finished else LT.playing)
         /\ LT.textMapping g' = LT.textMapping g
         /\ LT.currentText g' = LT.currentText g)
  \/ (exists mapping,
         LT.textMapping g = Some mapping
         /\ LT.gameState g = LT.playing
         /\ isComplete
              (validateInputAtPosition mapping text (LT.currentPosition g))
            = false
         /\ canContinue
              (validateInputAtPosition mapping text (LT.currentPosition g))
            = false
         /\ text <> []
         /\ LT.currentPosition g' = LT.currentPosition g
         /\ LT.score g' = LT.score g
         /\ LT.combo g' = 0
         /\ LT.lives g' = LT.lives g - 1
         /\ LT.errors g' = LT.errors g + 1
         /\ LT.userInput g' = []
         /\ LT.gameState g'
            = (if LT.lives g <=? 1 then LT.finished else LT.playing)
         /\ LT.textMapping g' = LT.textMapping g
         /\ LT.currentText g' = LT.currentText g)
  \/ (LT.gameState g = LT.playing
      /\ LT.currentPosition g' = LT.currentPosition g
      /\ LT.score g' = LT.score g
      /\ LT.combo g' = LT.combo g
      /\ LT.lives g' = LT.lives g
      /\ LT.errors g' = LT.errors g
      /\ LT.userInput g' = text
      /\ LT.gameState g' = LT.gameState g
      /\ LT.textMapping g' = LT.textMapping g
      /\ LT.currentText g' = LT.currentText g).
Proof.
  unfold LT.handleInputChange.
  destruct (LT.currentText g) as [t|] eqn:Et; [| left; reflexivity].
  destruct (LT.textMapping g) as [mapping|] eqn:Em; [| left; reflexivity].
  destruct (LT.gameState g) eqn:Eg; try (left; reflexivity).
  cbv zeta.
  destruct (isComplete
              (validateInputAtPosition mapping text (LT.currentPosition g)))
    eqn:Ec.
  - right; left. exists mapping.
    destruct (totalInputLength mapping <=? LT.currentPosition g + 1);
      cbn [LT.currentPosition LT.score LT.combo LT.lives LT.errors
           LT.userInput LT.gameState LT.textMapping LT.currentText];
      repeat split; try assumption; try reflexivity; lia.
  - destruct (canContinue
                (validateInputAtPosition mapping text
                   (LT.currentPosition g))) eqn:En; cbn [negb andb].
    + right; right; right.
      cbn [LT.currentPosition LT.score LT.combo LT.lives LT.errors
           LT.userInput LT.gameState LT.textMapping LT.currentText].
      repeat split; assumption.
    + destruct text as [|c text]; cbn [length Nat.ltb Nat.leb].
      * right; right; right.
        cbn [LT.currentPosition LT.score LT.combo LT.lives LT.errors
             LT.userInput LT.gameState LT.textMapping LT.currentText].
        repeat split; assumption.
      * right; right; left. exists mapping.
        cbn [LT.currentPosition LT.score LT.combo LT.lives LT.errors
             LT.userInput LT.gameState LT.textMapping LT.currentText].
        repeat split; try assumption; try discriminate; try reflexivity.
Qed.

(** X14. One call of [handleInputChange] outside of play changes nothing;
    in play it never moves the cursor back and moves it forward by one
    only when the validator says complete, never raises the lives, never
    lowers the score or the error count, and counts an error (one life
    less, combo back to zero) only for a non-empty text that the validator
    says neither complete nor able to continue. *)
Theorem handleInputChange_step (g : LT.Game) (text : jsstring) :
  let g' := LT.handleInputChange g text in
  (LT.gameState g <> LT.playing -> g' = g)
  /\ LT.textMapping g' = LT.textMapping g
  /\ LT.lives g' <= LT.lives g
  /\ LT.score g <= LT.score g'
  /\ LT.errors g <= LT.errors g'
  /\ LT.currentPosition g <= LT.currentPosition g' <= LT.currentPosition g + 1
  /\ (LT.currentPosition g' = LT.currentPosition g + 1 ->
      exists mapping,
        LT.textMapping g = Some mapping
        /\ isComplete
             (validateInputAtPosition mapping text (LT.currentPosition g))
           = true
        /\ LT.errors g' = LT.errors g /\ LT.lives g' = LT.lives g)
  /\ (LT.errors g' <> LT.errors g ->
      exists mapping,
        LT.textMapping g = Some mapping
        /\ text <> []
        /\ isComplete
             (validateInputAtPosition mapping text (LT.currentPosition g))
           = false
        /\ canContinue
             (validateInputAtPosition mapping text (LT.currentPosition g))
           = false
        /\ LT.errors g' = LT.errors g + 1
        /\ LT.lives g' = LT.lives g - 1
        /\ LT.combo g' = 0
        /\ LT.currentPosition g' = LT.currentPosition g).
Proof.
  intros g'.
  destruct (handleInputChange_cases g text)
    as [E | [(m & Hm & Hg & Hc & Hp & Hs & Hb & Hl & He & Hu & Hst & Ht & Hx)
       | [(m & Hm & Hg & Hc & Hn & Hne & Hp & Hs & Hb & Hl & He & Hu & Hst
           & Ht & Hx)
       | (Hg & Hp & Hs & Hb & Hl & He & Hu & Hst & Ht & Hx)]]];
    fold g' in E || fold g' in Hp, Hs, Hb, Hl, He, Hu, Hst, Ht.
  - rewrite E. repeat split; intros; try lia; congruence.
  - repeat split; intros; try lia; try congruence;
      exists m; repeat split; solve [assumption | lia | congruence].
  - repeat split; intros; try lia; try congruence;
      exists m; repeat split; solve [assumption | lia | congruence].
  - repeat split; intros; try lia; congruence.
Qed.

Lemma handleInputChange_keeps (g : LT.Game) (text : jsstring) :
  LT.textMapping (LT.handleInputChange g text) = LT.textMapping g
  /\ LT.currentText (LT.handleInputChange g text) = LT.currentText g.
Proof.
  destruct (handleInputChange_cases g text)
    as [E | [(m & Hr) | [(m & Hr) | Hr]]].
  - rewrite E. split; reflexivity.
  - split; apply Hr.
  - split; apply Hr.
  - split; apply Hr.
Qed.

Lemma handleInputChange_cursor (g : LT.Game) (text : jsstring)
    (mapping : TextMapping) :
  LT.textMapping g = Some mapping ->
  LT.currentPosition g <= length (mappings mapping) ->
  LT.currentPosition (LT.handleInputChange g text)
  <= length (mappings mapping).
Proof.
  intros Hm Hle.
  destruct (handleInputChange_cases g text)
    as [E | [(m & Hm' & _ & Hc & Hp & _) | [(m & Hr) | Hr]]].
  - rewrite E. exact Hle.
  - rewrite Hm in Hm'. injection Hm' as <-.
    apply complete_in_range in Hc. cbv zeta in Hp. lia.
  - destruct Hr as (_ & _ & _ & _ & _ & Hp & _). cbv zeta in Hp. lia.
  - destruct Hr as (_ & Hp & _). cbv zeta in Hp. lia.
Qed.

Lemma typeAll_cons (g : LT.Game) (text : jsstring) (texts : list jsstring) :
  LT.typeAll g (text :: texts)
  = LT.typeAll (LT.handleInputChange g text) texts.
Proof. reflexivity. Qed.

Lemma typeAll_cursor (texts : list jsstring) :
  forall (g : LT.Game) (mapping : TextMapping),
    LT.textMapping g = Some mapping ->
    LT.currentPosition g <= length (mappings mapping) ->
    LT.textMapping (LT.typeAll g texts) = Some mapping
    /\ LT.currentPosition (LT.typeAll g texts) <= length (mappings mapping).
Proof.
  induction texts as [|text texts IH]; intros g mapping Hm Hle.
  - split; assumption.
  - rewrite typeAll_cons. apply IH.
    + rewrite (proj1 (handleInputChange_keeps g text)). exact Hm.
    + apply handleInputChange_cursor; assumption.
Qed.

(** X15. Whatever is typed after [startGame], the screen keeps the mapping
    that [startGame] built and the cursor never passes the number of its
    entries. *)
Theorem startGame_cursor_bound (newText : LT.LongTextContent)
    (texts : list jsstring) :
  let g := LT.typeAll (LT.startGame newText) texts in
  LT.textMapping g = LT.textMapping (LT.startGame newText)
  /\ exists mapping,
      LT.textMapping g = Some mapping
      /\ LT.currentPosition g <= length (mappings mapping).
Proof.
  intros g.
  destruct (typeAll_cursor texts (LT.startGame newText) _ eq_refl)
    as [Hm Hle]; [cbn; lia |].
  fold g in Hm, Hle. split; [exact Hm | eauto].
Qed.

(** X16. With the cursor at or past the last entry of the mapping, a call
    of [handleInputChange] in play with a non-empty text is counted as an
    error whatever the text: one error more, one life less, the combo back
    to zero, the cursor where it was, and the game finished when at most
    one life was left. *)
Theorem handleInputChange_past_entries (g : LT.Game) (text : jsstring)
    (mapping : TextMapping) :
  LT.gameState g = LT.playing ->
  LT.currentText g <> None ->
  LT.textMapping g = Some mapping ->
  length (mappings mapping) <= LT.currentPosition g ->
  text <> [] ->
  let g' := LT.handleInputChange g text in
  LT.errors g' = LT.errors g + 1
  /\ LT.lives g' = LT.lives g - 1
  /\ LT.combo g' = 0
  /\ LT.score g' = LT.score g
  /\ LT.currentPosition g' = LT.currentPosition g
  /\ LT.gameState g'
     = (if LT.lives g <=? 1 then LT.finished else LT.playing).
Proof.
  intros Hg Ht Hm Hout Hne g'. subst g'.
  unfold LT.handleInputChange. rewrite Hm, Hg.
  destruct (LT.currentText g); [| contradiction].
  cbv zeta. rewrite (validate_out_of_range _ _ _ Hout).
  cbn [isComplete canContinue nothingLeft negb andb].
  destruct text as [|c text]; [contradiction |].
  cbn [LT.currentPosition LT.score LT.combo LT.lives LT.errors
       LT.userInput LT.gameState LT.textMapping LT.currentText].
  repeat split; try reflexivity; lia.
Qed.

Lemma typeAll_short_mapping (texts : list jsstring) :
  forall (g : LT.Game) (mapping : TextMapping),
    LT.textMapping g = Some mapping ->
    length (mappings mapping) < totalInputLength mapping ->
    LT.currentPosition g <= length (mappings mapping) ->
    inPlayOrOut g ->
    inPlayOrOut (LT.typeAll g texts)
    /\ LT.currentPosition (LT.typeAll g texts) < totalInputLength mapping.
Proof.
  induction texts as [|text texts IH]; intros g mapping Hm Hshort Hle Hst.
  - split; [exact Hst | cbn; lia].
  - rewrite typeAll_cons.
    apply IH; try assumption.
    + rewrite (proj1 (handleInputChange_keeps g text)). exact Hm.
    + apply handleInputChange_cursor; assumption.
    + destruct (handleInputChange_cases g text)
        as [E | [(m & Hm' & Hg & Hc & Hp & _ & _ & _ & _ & _ & Hs & _)
           | [(m & Hm' & Hg & _ & _ & _ & _ & _ & _ & Hl & _ & _ & Hs & _)
           | (Hg & _ & _ & _ & _ & _ & _ & Hs & _)]]].
      * rewrite E. exact Hst.
      * rewrite Hm in Hm'. injection Hm' as <-.
        apply complete_in_range in Hc.
        cbv zeta in Hs. unfold inPlayOrOut. rewrite Hs.
        destruct (totalInputLength mapping <=? LT.currentPosition g + 1)
          eqn:E; [apply Nat.leb_le in E; lia | left; reflexivity].
      * cbv zeta in Hs, Hl. unfold inPlayOrOut. rewrite Hs, Hl.
        destruct (LT.lives g <=? 1) eqn:E.
        -- apply Nat.leb_le in E. right. split; [reflexivity | lia].
        -- left. reflexivity.
      * cbv zeta in Hs. unfold inPlayOrOut. rewrite Hs. left. exact Hg.
Qed.

End Screen.

Section Runs.

Context `{Ext.Services}.

(** X17. When the mapping that [startGame] built has fewer entries than
    [totalInputLength], whatever is typed the cursor stays below
    [totalInputLength]: the text is never completed, the bonus for
    completing it is never given, and the game is either still in play or
    it has ended with no life left. *)
Theorem short_mapping_never_completes (newText : LT.LongTextContent)
    (mapping : TextMapping) (texts : list jsstring) :
  LT.textMapping (LT.startGame newText) = Some mapping ->
  length (mappings mapping) < totalInputLength mapping ->
  let g := LT.typeAll (LT.startGame newText) texts in
  LT.currentPosition g < totalInputLength mapping
  /\ (LT.gameState g = LT.playing
      \/ (LT.gameState g = LT.finished /\ LT.lives g = 0)).
Proof.
  intros Hm Hshort g.
  destruct (typeAll_short_mapping texts (LT.startGame newText) mapping
              Hm Hshort) as [Hst Hp].
  - cbn. lia.
  - left. reflexivity.
  - split; [exact Hp | exact Hst].
Qed.

Lemma handleInputChange_complete (g : LT.Game) (text : jsstring)
    (mapping : TextMapping) :
  LT.currentText g <> None ->
  LT.textMapping g = Some mapping ->
  LT.gameState g = LT.playing ->
  isComplete (validateInputAtPosition mapping text (LT.currentPosition g))
  = true ->
  let g' := LT.handleInputChange g text in
  LT.currentPosition g' = LT.currentPosition g + 1
  /\ LT.score g'
     = LT.score g + 5 * (LT.combo g + 1)
       + (if totalInputLength mapping <=? LT.currentPosition g + 1
          then totalInputLength mapping * 10 else 0)
  /\ LT.combo g' = LT.combo g + 1
  /\ LT.lives g' = LT.lives g
  /\ LT.errors g' = LT.errors g
  /\ LT.userInput g' = []
  /\ LT.gameState g'
     = (if totalInputLength mapping <=? LT.currentPosition g + 1
        then LT.finished else LT.playing)
  /\ LT.textMapping g' = Some mapping
  /\ LT.currentText g' <> None.
Proof.
  intros Ht Hm Hg Hc g'. subst g'.
  unfold LT.handleInputChange. rewrite Hm, Hg.
  destruct (LT.currentText g) as [t|] eqn:Et; [| contradiction].
  cbv zeta. rewrite Hc.
  destruct (totalInputLength mapping <=? LT.currentPosition g + 1);
    cbn [LT.currentPosition LT.score LT.combo LT.lives LT.errors
         LT.userInput LT.gameState LT.textMapping LT.currentText];
    rewrite ?Et; repeat split; try assumption; try discriminate;
    try reflexivity; lia.
Qed.

Lemma perfect_run (text input : jsstring) (mapping : TextMapping) :
  Exact text input mapping ->
  forall k (g : LT.Game),
    LT.currentText g <> None ->
    LT.textMapping g = Some mapping ->
    LT.gameState g = LT.playing ->
    LT.currentPosition g + k = length input ->
    1 <= k ->
    let g' :=
      LT.typeAll g (keystrokes (skipn (LT.currentPosition g) input)) in
    LT.gameState g' = LT.finished
    /\ LT.currentPosition g' = length input
    /\ LT.errors g' = LT.errors g
    /\ LT.lives g' = LT.lives g
    /\ LT.combo g' = LT.combo g + k
    /\ LT.userInput g' = []
    /\ 2 * LT.score g'
       = 2 * LT.score g + 5 * k * (2 * LT.combo g + k + 1)
         + 20 * length input.
Proof.
  intros HE. induction k as [|k IH]; intros g Ht Hm Hg Hk Hpos; [lia |].
  destruct (nth_error input (LT.currentPosition g)) as [x|] eqn:Ex;
    [| apply nth_error_None in Ex; lia].
  rewrite (skipn_nth input _ x Ex). unfold keystrokes. cbn [map].
  fold (keystrokes (skipn (S (LT.currentPosition g)) input)).
  cbv zeta. rewrite typeAll_cons.
  destruct (nth_error (mappings mapping) (LT.currentPosition g))
    as [e|] eqn:Ee.
  2:{ apply nth_error_None in Ee. rewrite (Exact_length _ _ _ HE) in Ee.
      lia. }
  assert (inputChar e = JString [x]) as Hx.
  { pose proof (exact_chars _ _ _ HE) as Hc. rewrite Forall_forall in Hc.
    rewrite (Hc e (nth_error_In _ _ Ee)), (Exact_nth _ _ _ HE _ e Ee).
    unfold charAt. rewrite Ex. reflexivity. }
  pose proof (exact_match_complete mapping _ e [x] Ee Hx) as Hc.
  destruct (handleInputChange_complete g [x] mapping Ht Hm Hg Hc)
    as (Hp1 & Hs1 & Hb1 & Hl1 & He1 & Hu1 & Hg1 & Hm1 & Ht1).
  rewrite (exact_total _ _ _ HE) in Hs1, Hg1.
  set (g1 := LT.handleInputChange g [x]) in *.
  destruct k as [|k].
  - assert ((length input <=? LT.currentPosition g + 1) = true) as El
        by (apply Nat.leb_le; lia).
    rewrite El in Hs1, Hg1.
    rewrite skipn_all2 by lia. cbn [keystrokes map LT.typeAll fold_left].
    repeat split; try assumption; lia.
  - assert ((length input <=? LT.currentPosition g + 1) = false) as El
        by (apply Nat.leb_gt; lia).
    rewrite El in Hs1, Hg1.
    replace (S (LT.currentPosition g)) with (LT.currentPosition g1) by lia.
    assert (LT.currentPosition g1 + S k = length input) as Hk1 by lia.
    pose proof (IH g1 Ht1 Hm1 Hg1 Hk1 (le_n_S _ _ (Nat.le_0_l k))) as HIH.
    cbv zeta in HIH. destruct HIH as (Fg & Fp & Fe & Fl & Fb & Fu & Fs).
    repeat split; try assumption; try lia; rewrite Fs, Hs1, Hb1; nia.
Qed.

(** X18. When [startGame] is given a well-formed pair with a non-empty
    input text and the characters of the input text are then typed one at
    a time, each keystroke completes its position and the game finishes on
    the last one: the cursor is at [totalInputLength], no error was
    counted, the three lives are left, the combo is the number of
    characters [n] and the score is 5 (1 + 2 + ... + n) + 10 n. *)
Theorem typing_the_input_text_finishes (newText : LT.LongTextContent) :
  let displayContent :=
    LT.orElse (LT.displayContent newText) (LT.content newText) in
  let inputContent :=
    LT.orElse (LT.inputContent newText) (LT.content newText) in
  wellFormedPair displayContent inputContent = true ->
  inputContent <> [] ->
  let g := LT.typeAll (LT.startGame newText) (keystrokes inputContent) in
  let n := length inputContent in
  LT.gameState g = LT.finished
  /\ LT.currentPosition g = n
  /\ LT.errors g = 0
  /\ LT.lives g = 3
  /\ LT.combo g = n
  /\ LT.userInput g = []
  /\ 2 * LT.score g = 5 * n * (n + 1) + 20 * n.
Proof.
  intros displayContent inputContent Hwf Hne g n.
  assert (Exact displayContent inputContent
            (createAdvancedTextMapping displayContent inputContent)) as HE
      by (apply wellFormed_Exact; [exact Hwf | right; reflexivity]).
  assert (1 <= n) as Hn
      by (subst n; destruct inputContent; [contradiction | cbn; lia]).
  pose proof (perfect_run _ _ _ HE n (LT.startGame newText)) as Hrun.
  cbn [LT.startGame LT.currentPosition LT.currentText LT.textMapping
       LT.gameState LT.errors LT.lives LT.combo LT.score skipn Nat.add]
    in Hrun.
  fold displayContent inputContent in Hrun.
  destruct Hrun as (Fg & Fp & Fe & Fl & Fb & Fu & Fs);
    try reflexivity; try discriminate; try assumption.
  fold (LT.startGame newText) in Fg, Fp, Fe, Fl, Fb, Fu, Fs.
  fold g in Fg, Fp, Fe, Fl, Fb, Fu, Fs.
  repeat split; try assumption; lia.
Qed.

End Runs.

(** ** The further properties on the small dictionary *)

Lemma mapping_inputIndex_increasing_witness :
  NoDup (map inputIndex
           (mappings (Sample.mappingOf Sample.taberu Sample.taberu_kana))).
Proof.
  exact (proj1 (proj2 (@mapping_inputIndex_increasing Sample.services
                         Sample.taberu Sample.taberu_kana _
                         (or_introl eq_refl)))).
Defined.

Lemma mapping_entries_faithful_witness :
  Forall (fun e => isKanji e = true ->
                   exists x, nth_error Sample.taberu_kana (inputIndex e)
                             = Some x
                             /\ inputChar e = JString [x])
         (mappings (Sample.mappingOf Sample.taberu Sample.taberu_kana)).
Proof.
  eapply Forall_impl;
    [| exact (@mapping_entries_faithful Sample.services Sample.taberu
                Sample.taberu_kana _ (or_introl eq_refl))].
  intros e He. apply He.
Defined.

Lemma createTextMapping_terminates_witness :
  3 <= 7
  /\ @loop Sample.services Sample.taberu Sample.taberu_kana 7 start
     = @finalCursor Sample.services Sample.taberu Sample.taberu_kana.
Proof.
  split; [lia |].
  apply (proj1 (@createTextMapping_terminates Sample.services
                  Sample.taberu Sample.taberu_kana)).
  vm_compute; lia.
Defined.

Lemma mapping_empty_iff_witness :
  mappings (Sample.advancedMappingOf Sample.kino []) = [].
Proof.
  apply (proj2 (@mapping_empty_iff Sample.services Sample.kino [] _
                  (or_intror eq_refl))).
  right. reflexivity.
Defined.


Lemma position_round_trip_witness :
  let mapping :=
    Sample.mappingOf Sample.daigakusei Sample.daigakusei_kana in
  @wellFormedPair Sample.services Sample.daigakusei Sample.daigakusei_kana
  = true
  /\ getDisplayPositionFromInput mapping
       (getInputPositionFromDisplay mapping 2) = 2
  /\ getInputPositionFromDisplay mapping
       (getDisplayPositionFromInput mapping 3) <= 3.
Proof.
  cbv zeta. split; [reflexivity |].
  destruct (@position_round_trip Sample.services Sample.daigakusei
              Sample.daigakusei_kana _ eq_refl (or_introl eq_refl))
    as (Hback & Hfirst).
  split; [apply Hback; vm_compute; lia | apply Hfirst].
Defined.

Lemma getTargetCharAtPosition_spells_input_witness :
  let mapping :=
    Sample.advancedMappingOf Sample.daigakusei Sample.daigakusei_kana in
  @wellFormedPair Sample.services Sample.daigakusei Sample.daigakusei_kana
  = true
  /\ flat_map (getTargetCharAtPosition mapping)
       (seq 0 (totalInputLength mapping))
     = Sample.daigakusei_kana.
Proof.
  cbv zeta. split; [reflexivity |].
  exact (proj2 (@getTargetCharAtPosition_spells_input Sample.services
                  Sample.daigakusei Sample.daigakusei_kana _ eq_refl
                  (or_intror eq_refl))).
Defined.

Lemma splitTextForDisplay_at_display_position_witness :
  let mapping :=
    Sample.mappingOf Sample.daigakusei Sample.daigakusei_kana in
  @wellFormedPair Sample.services Sample.daigakusei Sample.daigakusei_kana
  = true
  /\ splitTextForDisplay mapping 3
     = {| completedPart := [Sample.dai];
          currentChar := [Sample.gaku];
          remainingPart := [Sample.sei] |}.
Proof.
  cbv zeta. split; [reflexivity |].
  pose proof (@splitTextForDisplay_at_display_position Sample.services
                Sample.daigakusei Sample.daigakusei_kana
                (Sample.mappingOf Sample.daigakusei Sample.daigakusei_kana)
                3 eq_refl (or_introl eq_refl)) as Hcut.
  cbv zeta in Hcut. rewrite Hcut. reflexivity.
Defined.

Lemma validateInputAtPosition_exact_match_witness :
  let mapping := Sample.mappingOf Sample.kino Sample.kino_kana in
  isValid (Sample.validate mapping [Sample.h_no] 1) = true
  /\ isComplete (Sample.validate mapping [Sample.h_no] 1) = true.
Proof.
  cbv zeta.
  exact (@validateInputAtPosition_exact_match Sample.services
           (Sample.mappingOf Sample.kino Sample.kino_kana) 1 _
           [Sample.h_no] eq_refl eq_refl).
Defined.

Lemma validateInputAtPosition_flags_imply_valid_witness :
  let mapping := Sample.mappingOf [Sample.h_ba] [Sample.h_ba] in
  canContinue (Sample.validate mapping [Sample.h_ha] 0) = true
  /\ isValid (Sample.validate mapping [Sample.h_ha] 0) = true.
Proof.
  cbv zeta. split; [reflexivity |].
  apply (proj2 (@validateInputAtPosition_flags_imply_valid Sample.services
                  (Sample.mappingOf [Sample.h_ba] [Sample.h_ba])
                  [Sample.h_ha] 0)).
  reflexivity.
Defined.

(** 生 typed as せい, with な typed at the first position: な is the first
    kana of the other reading なま. *)
Lemma validateInputAtPosition_alternative_witness :
  let mapping :=
    Sample.advancedMappingOf [Sample.sei] [Sample.h_se; Sample.h_i] in
  isValid (Sample.validate mapping [Sample.h_na] 0) = true
  /\ isComplete (Sample.validate mapping [Sample.h_na] 0) = false
  /\ canContinue (Sample.validate mapping [Sample.h_na] 0) = true.
Proof.
  cbv zeta. unfold Sample.validate.
  destruct (@validateInputAtPosition_alternative Sample.services
              (Sample.advancedMappingOf [Sample.sei]
                 [Sample.h_se; Sample.h_i])
              [Sample.h_na] 0 _ eq_refl) as (Hv & Hc & Hn).
  - right. left. reflexivity.
  - discriminate.
  - split; [exact Hv |]. split; [rewrite Hc; reflexivity |].
    apply Hn. rewrite Hc. reflexivity.
Defined.

Lemma validateInputAtPosition_target_first_witness :
  exists rest,
    possibleChars
      (Sample.validate (Sample.mappingOf [Sample.h_ba] [Sample.h_ba])
         [Sample.h_ha] 0)
    = JString [Sample.h_ba] :: rest.
Proof.
  exact (@validateInputAtPosition_target_first Sample.services
           (Sample.mappingOf [Sample.h_ba] [Sample.h_ba])
           [Sample.h_ha] 0 _ eq_refl).
Defined.

Lemma createAdvancedTextMapping_variations_witness :
  option_map readingVariations
    (nth_error
       (mappings (Sample.advancedMappingOf [Sample.sei]
                    [Sample.h_se; Sample.h_i])) 1)
  = Some (Some [JString [Sample.h_ma]]).
Proof.
  destruct (nth_error
              (mappings (Sample.advancedMappingOf [Sample.sei]
                           [Sample.h_se; Sample.h_i])) 1)
    as [e|] eqn:E; [| discriminate].
  pose proof (proj1 (proj2 (@createAdvancedTextMapping_variations
                              Sample.services [Sample.sei]
                              [Sample.h_se; Sample.h_i] 1 e E))) as Hk.
  cbn [option_map]. rewrite Hk; [reflexivity |].
  vm_compute in E. injection E as <-. reflexivity.
Defined.

(** 木 to be typed as きの: き completes the only entry, の is then an
    error and costs a life. *)
Lemma handleInputChange_step_witness :
  let g := Sample.typeAll (Sample.startGame Sample.kiText) [[Sample.h_ki]] in
  let g' := @LT.handleInputChange Sample.services g [Sample.h_no] in
  LT.errors g' <> LT.errors g
  /\ LT.lives g' = LT.lives g - 1
  /\ LT.currentPosition g' = LT.currentPosition g.
Proof.
  cbv zeta.
  assert (LT.errors
            (@LT.handleInputChange Sample.services
               (Sample.typeAll (Sample.startGame Sample.kiText)
                  [[Sample.h_ki]]) [Sample.h_no])
          <> LT.errors
               (Sample.typeAll (Sample.startGame Sample.kiText)
                  [[Sample.h_ki]])) as Hne by (vm_compute; discriminate).
  split; [exact Hne |].
  destruct (proj2 (proj2 (proj2 (proj2 (proj2 (proj2 (proj2
              (@handleInputChange_step Sample.services
                 (Sample.typeAll (Sample.startGame Sample.kiText)
                    [[Sample.h_ki]]) [Sample.h_no]))))))) Hne)
    as (m & _ & _ & _ & _ & _ & Hl & _ & Hp).
  split; [exact Hl | exact Hp].
Defined.

Lemma handleInputChange_past_entries_witness :
  let g := Sample.typeAll (Sample.startGame Sample.kiText) [[Sample.h_ki]] in
  let g' := @LT.handleInputChange Sample.services g [Sample.h_no] in
  LT.currentPosition g = 1
  /\ LT.errors g' = LT.errors g + 1
  /\ LT.lives g' = LT.lives g - 1.
Proof.
  cbv zeta. split; [reflexivity |].
  destruct (@handleInputChange_past_entries Sample.services
              (Sample.typeAll (Sample.startGame Sample.kiText)
                 [[Sample.h_ki]])
              [Sample.h_no]
              (Sample.advancedMappingOf [Sample.ki] Sample.kino_kana))
    as (He & Hl & _); try reflexivity; try discriminate.
  split; [exact He | exact Hl].
Defined.

Lemma short_mapping_never_completes_witness :
  let mapping := Sample.advancedMappingOf [Sample.ki] Sample.kino_kana in
  let g :=
    Sample.typeAll (Sample.startGame Sample.kiText)
      [[Sample.h_ki]; [Sample.h_no]; [Sample.h_no]; [Sample.h_no]] in
  length (mappings mapping) < totalInputLength mapping
  /\ LT.currentPosition g < totalInputLength mapping
  /\ (LT.gameState g = LT.playing
      \/ (LT.gameState g = LT.finished /\ LT.lives g = 0)).
Proof.
  cbv zeta. split; [vm_compute; lia |].
  apply (@short_mapping_never_completes Sample.services Sample.kiText
           (Sample.advancedMappingOf [Sample.ki] Sample.kino_kana)).
  - reflexivity.
  - vm_compute; lia.
Defined.

Lemma typing_the_input_text_finishes_witness :
  let g :=
    Sample.typeAll (Sample.startGame Sample.daigakuseiText)
      (keystrokes Sample.daigakusei_kana) in
  @wellFormedPair Sample.services Sample.daigakusei Sample.daigakusei_kana
  = true
  /\ Sample.daigakusei_kana <> []
  /\ LT.gameState g = LT.finished
  /\ LT.currentPosition g = 6
  /\ LT.lives g = 3
  /\ LT.score g = 165.
Proof.
  cbv zeta.
  assert (@wellFormedPair Sample.services Sample.daigakusei
            Sample.daigakusei_kana = true) as Hwf
      by (vm_compute; reflexivity).
  assert (Sample.daigakusei_kana <> []) as Hne by discriminate.
  split; [exact Hwf |]. split; [exact Hne |].
  pose proof (@typing_the_input_text_finishes Sample.services
                Sample.daigakuseiText Hwf Hne) as Hrun.
  cbv zeta in Hrun.
  change (LT.orElse (LT.inputContent Sample.daigakuseiText)
            (LT.content Sample.daigakuseiText))
    with Sample.daigakusei_kana in Hrun.
  change (length Sample.daigakusei_kana) with 6 in Hrun.
  unfold Sample.typeAll, Sample.startGame.
  destruct Hrun as (Hg & Hp & _ & Hl & _ & _ & Hs).
  split; [exact Hg |]. split; [exact Hp |]. split; [exact Hl |].
  lia.
Defined.
